(** * human-browser: the motion and timing synthesis engine

    A shallow embedding of [src/human-mouse.js] and the properties of its
    path planner, motion controller and typing planner.

    Conventions of the embedding.
    - A JavaScript number is a real number ([R]).  The one place of the
      source where a number can fail to be one is the step count of
      [generatePath], whose [Math.log2] is NaN on a negative number and
      -Infinity at 0: there the embedding uses [JsNumber].  [Math.round x]
      is [floor (x + 1/2)].
    - [Math.random] reads an explicit stream of draws [rnd : nat -> R] at a
      cursor that every draw advances by one.
    - The rejection loop of [gaussRandom] has no bound in the source; the
      embedding runs it on a fuel counter and returns [None] when the fuel
      is used up, so that "the loop terminates" is a statement about the
      stream of draws ([yields]).
    - The Playwright page is an event log: every [page.mouse.*],
      [page.keyboard.press] and [page.waitForTimeout] call appends one
      event. *)

From Stdlib Require Import Reals Lra Lia ZArith List String Ascii Bool Arith.
Import ListNotations.

Open Scope R_scope.

(** ** JavaScript numbers and [Math] *)

Definition Rgeb (a b : R) : bool := if Rle_dec b a then true else false.
Definition Rgtb (a b : R) : bool := if Rlt_dec b a then true else false.
Definition Rltb (a b : R) : bool := if Rlt_dec a b then true else false.
Definition Rleb (a b : R) : bool := if Rle_dec a b then true else false.
Definition Reqb (a b : R) : bool := if Req_dec_T a b then true else false.

(** A number that may fail to be a real: what [Math.log2] gives off the
    positive numbers. *)
Inductive JsNumber : Type :=
| Fin (r : R)
| NaN
| NegInf.

Module Math.
Definition sqrt (x : R) : R := R_sqrt.sqrt x.
Definition log (x : R) : R := ln x.
(** [Math.log2]: NaN on a negative number, -Infinity at 0. *)
Definition log2 (x : R) : JsNumber :=
  if Rlt_dec 0 x then Fin (ln x / ln 2)
  else if Req_dec_T x 0 then NegInf else NaN.
Definition sin (x : R) : R := Rtrigo_def.sin x.
Definition PI : R := Rtrigo1.PI.
Definition max (a b : R) : R := Rmax a b.
Definition min (a b : R) : R := Rmin a b.
Definition abs (a : R) : R := Rabs a.
Definition pow (a : R) (n : nat) : R := a ^ n.
(** [Math.round] rounds to the nearest integer, halves toward +infinity. *)
Definition roundZ (x : R) : Z := Zfloor (x + 0.5).
Definition round (x : R) : R := IZR (roundZ x).
End Math.

(** [a || d] on an optional number: [undefined] and [0] are falsy. *)
Definition num_or (a : option R) (d : R) : R :=
  match a with
  | Some v => if Reqb v 0 then d else v
  | None => d
  end.

(** [a ?? d] on an optional number: only [undefined] takes the default. *)
Definition num_coalesce (a : option R) (d : R) : R :=
  match a with
  | Some v => v
  | None => d
  end.

(** Truthiness of an optional number. *)
Definition truthy (a : option R) : bool :=
  match a with
  | Some v => negb (Reqb v 0)
  | None => false
  end.

(** ** Vector math *)

Record Point2D : Type := mkPoint { px : R; py : R }.

Definition div_chk (a b : R) : option R :=
  if Req_dec_T b 0 then None else Some (a / b).

Module vec.
Definition add (a b : Point2D) : Point2D := mkPoint (px a + px b) (py a + py b).
Definition sub (a b : Point2D) : Point2D := mkPoint (px a - px b) (py a - py b).
Definition mult (a : Point2D) (s : R) : Point2D := mkPoint (px a * s) (py a * s).
Definition mag (a : Point2D) : R := Math.sqrt (px a * px a + py a * py a).
Definition unit (a : Point2D) : Point2D :=
  let m := mag a in
  if Req_dec_T m 0 then mkPoint 0 0 else mkPoint (px a / m) (py a / m).
(** [unit] once more, with every division checked: [None] would be a
    division by zero. *)
Definition unit_chk (a : Point2D) : option Point2D :=
  let m := mag a in
  if Req_dec_T m 0 then Some (mkPoint 0 0)
  else match div_chk (px a) m, div_chk (py a) m with
       | Some qx, Some qy => Some (mkPoint qx qy)
       | _, _ => None
       end.
Definition perp (a : Point2D) : Point2D := mkPoint (py a) (- px a).
Definition setMag (a : Point2D) (m : R) : Point2D := mult (unit a) m.
Definition lerp (a b : Point2D) (t : R) : Point2D :=
  mkPoint (px a + (px b - px a) * t) (py a + (py b - py a) * t).
End vec.

(** ** Computations: fuel, state, possible non-termination *)

Definition M (St A : Type) : Type := nat -> St -> option (A * St).

Definition ret {St A} (a : A) : M St A := fun _ s => Some (a, s).

Definition bind {St A B} (m : M St A) (k : A -> M St B) : M St B :=
  fun fuel s =>
    match m fuel s with
    | Some (a, s') => k a fuel s'
    | None => None
    end.

Declare Scope comp_scope.
Delimit Scope comp_scope with comp.
Notation "x <- c ;; k" := (bind c (fun x => k))
  (at level 61, c at next level, right associativity) : comp_scope.
Notation "c ;;; k" := (bind c (fun _ => k))
  (at level 61, right associativity) : comp_scope.
Open Scope comp_scope.

(** [m] run from [s] gives [r] for every large enough fuel. *)
Definition yields {St A} (m : M St A) (s : St) (r : A * St) : Prop :=
  exists f0 : nat, forall f : nat, (f0 <= f)%nat -> m f s = Some r.

(** [m] gives a result from every state. *)
Definition total {St A} (m : M St A) : Prop :=
  forall s : St, exists r : A * St, yields m s r.

(** Total correctness: [m] run from [s] gives a result that satisfies [Q]. *)
Definition runs {St A} (m : M St A) (s : St) (Q : A -> St -> Prop) : Prop :=
  exists (a : A) (s' : St), yields m s (a, s') /\ Q a s'.

(** A counted loop [for (i = 0; i < n; i++) body(i)], run from index [i]. *)
Fixpoint for_loop {St} (n : nat) (i : nat) (body : nat -> M St unit) : M St unit :=
  match n with
  | O => ret tt
  | S n' => body i ;;; for_loop n' (S i) body
  end.

(** ** Random helpers *)

(** The random-number generator: the cursor into the stream of draws. *)
Definition Rand (A : Type) : Type := M nat A.

Section Random.
Variable rnd : nat -> R.

Definition Math_random : Rand R := fun _ p => Some (rnd p, S p).

Definition rand (min max : R) : Rand R :=
  r <- Math_random ;; ret (r * (max - min) + min).

(** Box-Muller, polar form.  One unit of fuel is one turn of the
    [do ... while (s >= 1 || s === 0)] loop. *)
Fixpoint gaussRandom (fuel : nat) : nat -> option (R * nat) :=
  match fuel with
  | O => fun _ => None
  | S fuel' =>
      (r1 <- Math_random ;;
       r2 <- Math_random ;;
       let u := r1 * 2 - 1 in
       let v := r2 * 2 - 1 in
       let s := u * u + v * v in
       if Rgeb s 1 || Reqb s 0
       then (fun _ => gaussRandom fuel')
       else ret (u * Math.sqrt (-2 * Math.log s / s))) fuel'
  end.

Definition gauss (mean stddev : R) : Rand R :=
  g <- gaussRandom ;; ret (mean + g * stddev).
End Random.

(** A counted loop that collects what each turn pushes. *)
Fixpoint for_collect {St A} (n : nat) (i : nat) (body : nat -> M St A) : M St (list A) :=
  match n with
  | O => ret []
  | S n' => a <- body i ;; rest <- for_collect n' (S i) body ;; ret (a :: rest)
  end.

(** ** Bezier curve generation *)

Record PathPoint : Type := mkPathPoint { ptx : R; pty : R; dt : R }.

(** The options object shared by the path functions and the controller. *)
Record Opts : Type := mkOpts {
  steps : option R;
  tremor : option R;
  spread : option R;
  targetWidth : option R;
  overshootThreshold : option R;
  button : option string
}.

Definition no_opts : Opts := mkOpts None None None None None None.

Definition with_tremor (o : Opts) (v : R) : Opts :=
  mkOpts (steps o) (Some v) (spread o) (targetWidth o) (overshootThreshold o) (button o).
Definition with_steps (o : Opts) (v : R) : Opts :=
  mkOpts (Some v) (tremor o) (spread o) (targetWidth o) (overshootThreshold o) (button o).
Definition with_targetWidth (o : Opts) (v : R) : Opts :=
  mkOpts (steps o) (tremor o) (spread o) (Some v) (overshootThreshold o) (button o).

(** The scalar projection used to order the two control points. *)
Definition proj (start dir : Point2D) (dist : R) (p : Point2D) : R :=
  let d := vec.sub p start in
  (px d * px dir + py d * py dir) / (dist * dist).

(** [arr[arr.length - 1] = v]: on an empty array the index is -1, which
    adds a property and no element. *)
Definition set_last {A} (l : list A) (v : A) : list A :=
  match l with
  | [] => []
  | _ :: _ => removelast l ++ [v]
  end.

(** The number of turns of [for (i = 0; i <= b; i++)]. *)
Definition turns_le (b : R) : nat := Z.to_nat (Zfloor b + 1).

(** The same for a bound that may be NaN or -Infinity: [i <= b] is then
    false from the start. *)
Definition turns_num (b : JsNumber) : nat :=
  match b with
  | Fin r => turns_le r
  | NaN => 0
  | NegInf => 0
  end.

Section PathPlanner.
Variable rnd : nat -> R.

Definition makeCP (start end_ dir : Point2D) (clampedSpread side : R) : Rand Point2D :=
  t <- rand rnd 0.2 0.8 ;;
  let midPoint := vec.lerp start end_ t in
  r <- rand rnd 0.3 1.0 ;;
  let normal := vec.setMag (vec.perp dir) (clampedSpread * r * side) in
  ret (vec.add midPoint normal).

Definition bezierControlPoints (start end_ : Point2D) (spread : option R)
  : Rand (list Point2D) :=
  let dir := vec.sub end_ start in
  let dist := vec.mag dir in
  let clampedSpread := Math.max 2 (Math.min (dist * 0.5) (num_or spread (dist * 0.3))) in
  c <- Math_random rnd ;;
  let side := if Rgtb c 0.5 then 1 else -1 in
  cp1 <- makeCP start end_ dir clampedSpread side ;;
  cp2 <- makeCP start end_ dir clampedSpread side ;;
  ret (if Rleb (proj start dir dist cp1) (proj start dir dist cp2)
       then [cp1; cp2] else [cp2; cp1]).

Definition cubicBezier (p0 p1 p2 p3 : Point2D) (t : R) : Point2D :=
  let u := 1 - t in
  mkPoint
    (u * u * u * px p0 + 3 * u * u * t * px p1 + 3 * u * t * t * px p2 + t * t * t * px p3)
    (u * u * u * py p0 + 3 * u * u * t * py p1 + 3 * u * t * t * py p2 + t * t * t * py p3).

(** ** Path generation *)

(** The step count of [generatePath]; the draw is made only when
    [opts.steps] is falsy.  In
    [Math.max(15, Math.round(fittsTime * 18 + rand(5, 15)))] a NaN
    [fittsTime] stays NaN through the sum, the rounding and the maximum; a
    [fittsTime] of -Infinity stays -Infinity through the sum and the
    rounding and loses to 15. *)
Definition baseSteps (opts : Opts) (dist : R) : Rand JsNumber :=
  let targetWidth := num_or (targetWidth opts) 50 in
  let fittsTime := Math.log2 (dist / targetWidth + 1) in
  if truthy (steps opts)
  then ret (Fin (num_or (steps opts) 0))
  else r <- rand rnd 5 15 ;;
       ret (match fittsTime with
            | Fin f => Fin (Math.max 15 (Math.round (f * 18 + r)))
            | NaN => NaN
            | NegInf => Fin 15
            end).

(** One turn of the sampling loop. *)
Definition pathStep (from to cp1 cp2 : Point2D) (tremor baseSteps : R) (i : nat)
  : Rand PathPoint :=
  let t := INR i / baseSteps in
  let eased := t * t * t * (t * (t * 6 - 15) + 10) in
  let p := cubicBezier from cp1 cp2 to eased in
  let tremorScale := 1 - Math.pow t 2 in
  jx <- gauss rnd 0 (tremor * tremorScale) ;;
  jy <- gauss rnd 0 (tremor * tremorScale) ;;
  let speedFactor := 0.3 + 0.7 * Math.sin (Math.PI * t) in
  baseDt <- rand rnd 4 12 ;;
  let dt := baseDt / Math.max speedFactor 0.3 in
  ret (mkPathPoint (Math.round (px p + jx)) (Math.round (py p + jy)) (Math.round dt)).

Definition origin : Point2D := mkPoint 0 0.

Definition generatePath (from to : Point2D) (opts : Opts) : Rand (list PathPoint) :=
  let dist := vec.mag (vec.sub to from) in
  if Rltb dist 1 then ret [mkPathPoint (px to) (py to) 0]
  else
    let tremor := num_coalesce (tremor opts) 1.2 in
    baseSteps <- baseSteps opts dist ;;
    cps <- bezierControlPoints from to (spread opts) ;;
    let cp1 := nth 0 cps origin in
    let cp2 := nth 1 cps origin in
    points <- match baseSteps with
              | Fin b => for_collect (turns_le b) 0 (pathStep from to cp1 cp2 tremor b)
              | NaN => ret []
              | NegInf => ret []
              end ;;
    r <- rand rnd 2 6 ;;
    ret (set_last points (mkPathPoint (Math.round (px to)) (Math.round (py to)) r)).

(** [leg1[leg1.length - 1].dt = v]. *)
Definition set_last_dt (l : list PathPoint) (v : R) : list PathPoint :=
  match l with
  | [] => []
  | _ :: _ =>
      let q := last l (mkPathPoint 0 0 0) in
      removelast l ++ [mkPathPoint (ptx q) (pty q) v]
  end.

Definition generateOvershootPath (from to : Point2D) (opts : Opts)
  : Rand (list PathPoint) :=
  let dist := vec.mag (vec.sub to from) in
  overshootDist <- rand rnd 8 (Math.min 35 (dist * 0.08)) ;;
  let dir := vec.unit (vec.sub to from) in
  let overshootPoint := vec.add to (vec.mult dir overshootDist) in
  g <- gauss rnd 0 (overshootDist * 0.4) ;;
  let perpOffset := vec.mult (vec.perp dir) g in
  let overshootTarget := vec.add overshootPoint perpOffset in
  leg1 <- generatePath from overshootTarget
            (with_tremor opts (num_coalesce (tremor opts) 1.2 * 1.3)) ;;
  leg1' <- (if (0 <? List.length leg1)%nat
            then r <- rand rnd 40 120 ;; ret (set_last_dt leg1 (Math.round r))
            else ret leg1) ;;
  r2 <- rand rnd 8 18 ;;
  leg2 <- generatePath overshootTarget to
            (with_tremor (with_steps opts (Math.max 8 (Math.round r2)))
               (num_coalesce (tremor opts) 1.2 * 0.6)) ;;
  ret (leg1' ++ leg2).
End PathPlanner.

(** ** The page: an event log *)

Inductive Event : Type :=
| MouseMove (x y : R)            (* page.mouse.move(x, y) *)
| MouseDown (button : string)    (* page.mouse.down({button}) *)
| MouseUp (button : string)      (* page.mouse.up({button}) *)
| MouseWheel (dx dy : R)         (* page.mouse.wheel(dx, dy) *)
| KeyPress (key : string)        (* page.keyboard.press(key) *)
| WaitForTimeout (ms : R)        (* page.waitForTimeout(ms) *)
| Log (label : string) (target : Point2D).

(** What a controller and its page hold: the cursor into the stream of
    draws, the captured [cursorPos], whether the page has the
    [ghost-cursor] element, and the events issued so far, oldest first. *)
Record World : Type := mkWorld {
  rng : nat;
  cursorPos : Point2D;
  ghostCursor : bool;
  events : list Event
}.

Definition Ctl (A : Type) : Type := M World A.

Definition liftR {A} (m : Rand A) : Ctl A :=
  fun fuel w =>
    match m fuel (rng w) with
    | Some (a, p) => Some (a, mkWorld p (cursorPos w) (ghostCursor w) (events w))
    | None => None
    end.

Definition emit (e : Event) : Ctl unit :=
  fun _ w => Some (tt, mkWorld (rng w) (cursorPos w) (ghostCursor w) (events w ++ [e])).

Definition get_cursorPos : Ctl Point2D := fun _ w => Some (cursorPos w, w).

Definition set_cursorPos (p : Point2D) : Ctl unit :=
  fun _ w => Some (tt, mkWorld (rng w) p (ghostCursor w) (events w)).

Definition when {St} (b : bool) (m : M St unit) : M St unit := if b then m else ret tt.

(** [a || d] on an optional string: [undefined] and the empty string are falsy. *)
Definition str_or (a : option string) (d : string) : string :=
  match a with
  | Some s => if string_dec s EmptyString then d else s
  | None => d
  end.

(** [text[i]]: the character at [i] as a string, [undefined] out of range. *)
Definition str_at (text : string) (i : Z) : option string :=
  if (i <? 0)%Z then None
  else match String.get (Z.to_nat i) text with
       | Some c => Some (String c EmptyString)
       | None => None
       end.

(** [s.includes(sub)]: [sub] occurs in [s] at some position. *)
Fixpoint includes (s sub : string) : bool :=
  String.prefix sub s ||
  match s with
  | EmptyString => false
  | String _ s' => includes s' sub
  end.

Record BoundingBox : Type := mkBox { bx : R; by_ : R; width : R; height : R }.

Record MouseOpts : Type := mkMouseOpts {
  debug : option bool;
  log : bool;                      (* whether a log function was given *)
  startPos : option Point2D
}.

Record TypingConfig : Type := mkTypingConfig {
  baseDelay : option R;
  variance : option R
}.

(** ** High-level mouse controller *)

Section Controller.
Variable rnd : nat -> R.
Variable mopts : MouseOpts.

Definition debug_on : bool := match debug mopts with Some b => b | None => false end.

(** [createHumanMouse]: the state a fresh controller starts from. *)
Definition createHumanMouse (p : nat) (ghost : bool) (evs : list Event) : World :=
  match startPos mopts with
  | Some q => mkWorld p q ghost evs
  | None =>
      let rx := rnd p * (350 - 100) + 100 in
      let ry := rnd (S p) * (500 - 300) + 300 in
      mkWorld (S (S p)) (mkPoint (Math.round rx) (Math.round ry)) ghost evs
  end.

(** The red dot is added once, and only in debug mode. *)
Definition ensureVisibleCursor : Ctl unit :=
  fun _ w =>
    if negb debug_on then Some (tt, w)
    else if ghostCursor w then Some (tt, w)
    else Some (tt, mkWorld (rng w) (cursorPos w) true (events w)).

Definition replay (path : list PathPoint) : Ctl unit :=
  fold_right
    (fun point rest =>
       emit (MouseMove (ptx point) (pty point)) ;;;
       when (Rgtb (dt point) 0) (emit (WaitForTimeout (dt point))) ;;;
       rest)
    (ret tt) path.

Definition moveTo (x y : R) (moveOpts : Opts) : Ctl unit :=
  let target := mkPoint x y in
  cur <- get_cursorPos ;;
  let dist := vec.mag (vec.sub target cur) in
  let overshootThreshold := num_coalesce (overshootThreshold moveOpts) 300 in
  shouldOvershoot <- (if Rgtb dist overshootThreshold
                      then c <- liftR (Math_random rnd) ;; ret (Rgtb c 0.3)
                      else ret false) ;;
  path <- liftR (if shouldOvershoot : bool
                 then generateOvershootPath rnd cur target moveOpts
                 else generatePath rnd cur target moveOpts) ;;
  ensureVisibleCursor ;;;
  replay path ;;;
  set_cursorPos (mkPoint x y).

Definition moveToElement (box : BoundingBox) (moveOpts : Opts) : Ctl Point2D :=
  let padX := width box * 0.15 in
  let padY := height box * 0.15 in
  rx <- liftR (rand rnd 0 (width box - 2 * padX)) ;;
  let targetX := Math.round (bx box + padX + rx) in
  ry <- liftR (rand rnd 0 (height box - 2 * padY)) ;;
  let targetY := Math.round (by_ box + padY + ry) in
  moveTo targetX targetY (with_targetWidth moveOpts (width box)) ;;;
  ret (mkPoint targetX targetY).

Definition pause (min max : R) : Ctl unit :=
  r <- liftR (rand rnd min max) ;; emit (WaitForTimeout (Math.round r)).

Definition click (clickOpts : Opts) : Ctl unit :=
  pause 60 180 ;;;
  emit (MouseDown (str_or (button clickOpts) "left")) ;;;
  pause 50 120 ;;;
  emit (MouseUp (str_or (button clickOpts) "left")) ;;;
  pause 80 200.

Definition moveAndClick (box : BoundingBox) (label : option string) (clickOpts : Opts)
  : Ctl Point2D :=
  target <- moveToElement box clickOpts ;;
  when (log mopts) (emit (Log (str_or label "element") target)) ;;;
  pause 100 400 ;;;
  click clickOpts ;;;
  ret target.

Definition idleDrift (durationMs : option R) : Ctl unit :=
  let durationMs := num_coalesce durationMs 2000 in
  r <- liftR (rand rnd 200 500) ;;
  let steps := Math.roundZ (durationMs / r) in
  for_loop (Z.to_nat steps) 0 (fun _ =>
    dx <- liftR (gauss rnd 0 3) ;;
    dy <- liftR (gauss rnd 0 3) ;;
    cur <- get_cursorPos ;;
    let next := mkPoint (Math.round (px cur + dx)) (Math.round (py cur + dy)) in
    emit (MouseMove (px next) (py next)) ;;;
    set_cursorPos next ;;;
    pause 150 400).

Definition scrollStep (perStep : R) : Ctl unit :=
  g <- liftR (gauss rnd 0 (Math.abs perStep * 0.15)) ;;
  let scrollAmount := perStep + g in
  emit (MouseWheel 0 (Math.round scrollAmount)) ;;;
  pause 60 150.

Definition humanScroll (deltaY : R) : Ctl unit :=
  r <- liftR (rand rnd 3 6) ;;
  let steps := Math.roundZ r in
  let perStep := deltaY / IZR steps in
  for_loop (Z.to_nat steps) 0 (fun _ => scrollStep perStep) ;;;
  pause 200 500.

(** [get position()] hands out a copy of [cursorPos]. *)
Definition position : Ctl Point2D :=
  cur <- get_cursorPos ;; ret (mkPoint (px cur) (py cur)).

(** [set position(p)]. *)
Definition set_position (p : Point2D) : Ctl unit :=
  set_cursorPos (mkPoint (px p) (py p)).
End Controller.

(** ** Human-like keyboard typing *)

Definition punctuation : string := ",. ;:!?".

(** The test guarding the punctuation pause at index [i]. *)
Definition punct_test (text : string) (i : nat) : bool :=
  includes punctuation (str_or (str_at text (Z.of_nat i - 1)) EmptyString).

Section Typing.
Variable rnd : nat -> R.

(** One turn of the loop of [humanType]. *)
Definition typeStep (text : string) (baseDelay variance : R) (i : nat) : Ctl unit :=
  let char := match str_at text (Z.of_nat i) with Some c => c | None => EmptyString end in
  c <- liftR (Math_random rnd) ;;
  when (Rltb c 0.08 && (0 <? i)%nat) (pause rnd 200 600) ;;;
  when (punct_test text i) (pause rnd 80 200) ;;;
  emit (KeyPress char) ;;;
  g <- liftR (gauss rnd baseDelay variance) ;;
  let delay := Math.max 20 g in
  emit (WaitForTimeout (Math.round delay)).

Definition humanType (text : string) (opts : TypingConfig) : Ctl unit :=
  let baseDelay := num_or (baseDelay opts) 65 in
  let variance := num_or (variance opts) 35 in
  for_loop (String.length text) 0 (typeStep text baseDelay variance).
End Typing.

(** ** What the Gaussian sampler reads from the stream *)

Section Pairs.
Variable rnd : nat -> R.

Definition pair_u (p : nat) : R := rnd p * 2 - 1.
Definition pair_v (p : nat) : R := rnd (S p) * 2 - 1.
Definition pair_s (p : nat) : R := pair_u p * pair_u p + pair_v p * pair_v p.

(** The pair drawn at cursor [p] lies in the open square and strictly
    inside the unit disk, the centre excluded. *)
Definition accepted (p : nat) : Prop :=
  -1 < pair_u p < 1 /\ -1 < pair_v p < 1 /\ 0 < pair_s p < 1.

(** The normal deviate formed from the pair at [p]. *)
Definition deviate (p : nat) : R :=
  pair_u p * Math.sqrt (-2 * Math.log (pair_s p) / pair_s p).

(** From every cursor on, some later pair is accepted. *)
Definition fair : Prop := forall p : nat, exists k : nat, accepted (p + 2 * k).

(** Every draw is in [0, 1), as [Math.random] promises. *)
Definition in_range : Prop := forall i : nat, 0 <= rnd i < 1.
End Pairs.

(** The cross product of two plane vectors, and the side of the line
    through [start] and [end_] a point lies on: the sign of the cross
    product of (point - start) with (end - start). *)
Definition cross2 (a b : Point2D) : R := px a * py b - py a * px b.

Definition side_of (start end_ p : Point2D) : R :=
  cross2 (vec.sub p start) (vec.sub end_ start).

(** The scalar projection of (point - start) onto the start->end direction. *)
Definition scalar_projection (start end_ p : Point2D) : R :=
  let d := vec.sub p start in
  let dir := vec.sub end_ start in
  (px d * px dir + py d * py dir) / vec.mag dir.

(** Two numbers of the same sign, neither zero. *)
Definition same_sign (a b : R) : Prop := (0 < a /\ 0 < b) \/ (a < 0 /\ b < 0).

(** The step count of [generatePath] as a function of the options, the
    distance and the draw at the cursor: a given non-zero [steps] as it is,
    the Fitts's-Law count otherwise, with [targetWidth] 50 unless a
    non-zero one is given. *)
Definition step_count (rnd : nat -> R) (opts : Opts) (dist : R) (p : nat) : JsNumber :=
  let tw := match targetWidth opts with
            | Some w => if Req_dec_T w 0 then 50 else w
            | None => 50
            end in
  let auto := match Math.log2 (dist / tw + 1) with
              | Fin f => Fin (Math.max 15 (Math.round (f * 18 + (rnd p * (15 - 5) + 5))))
              | NaN => NaN
              | NegInf => Fin 15
              end in
  match steps opts with
  | Some s => if Req_dec_T s 0 then auto else Fin s
  | None => auto
  end.

(** The target width [generatePath] divides by, and the step count where
    the logarithm is of a positive number: a real. *)
Definition target_width (opts : Opts) : R :=
  match targetWidth opts with
  | Some w => if Req_dec_T w 0 then 50 else w
  | None => 50
  end.

Definition fitts_steps (dist tw r : R) : R :=
  Rmax 15 (Math.round (ln (dist / tw + 1) / ln 2 * 18 + r)).

Definition step_count_real (rnd : nat -> R) (opts : Opts) (dist : R) (p : nat) : R :=
  match steps opts with
  | Some s => if Req_dec_T s 0
              then fitts_steps dist (target_width opts) (rnd p * (15 - 5) + 5)
              else s
  | None => fitts_steps dist (target_width opts) (rnd p * (15 - 5) + 5)
  end.

(** The target width, when given, is not negative. *)
Definition width_ok (opts : Opts) : Prop :=
  forall w : R, targetWidth opts = Some w -> 0 <= w.

(** A computation that leaves the controller's [cursorPos] as it found it. *)
Definition keeps_cursor {A} (m : Ctl A) : Prop :=
  forall fuel w a w', m fuel w = Some (a, w') -> cursorPos w' = cursorPos w.

(** The delays of the suspensions in an event log, in order, and the
    number of scroll-by events. *)
Fixpoint waits (evs : list Event) : list R :=
  match evs with
  | [] => []
  | WaitForTimeout ms :: rest => ms :: waits rest
  | _ :: rest => waits rest
  end.

Fixpoint wheels (evs : list Event) : nat :=
  match evs with
  | [] => 0
  | MouseWheel _ _ :: rest => S (wheels rest)
  | _ :: rest => wheels rest
  end.

(** The events of [n] turns of the scroll loop: a scroll-by and the
    suspension that follows it, per turn. *)
Definition scroll_events (turns : list (R * R)) : list Event :=
  flat_map (fun t => [MouseWheel 0 (fst t); WaitForTimeout (snd t)]) turns.

(** A controller made with no options, and the world of a fresh page with
    the cursor at [q]. *)
Definition mopts0 : MouseOpts := mkMouseOpts None false None.
Definition world0 (q : Point2D) : World := mkWorld 0 q false [].

(** The characters after which the typing planner is meant to pause. *)
Definition punct_chars : list ascii :=
  [","; "."; " "; ";"; ":"; "!"; "?"]%char.

(** The side bit and the control point [makeCP] builds, as functions of
    the draws: the side from the draw at [p], the point from the two draws
    at [q] and [q + 1]. *)
Definition side_at (rnd : nat -> R) (p : nat) : R := if Rgtb (rnd p) 0.5 then 1 else -1.

Definition clamped_spread (start end_ : Point2D) (spread : option R) : R :=
  let dist := vec.mag (vec.sub end_ start) in
  Math.max 2 (Math.min (dist * 0.5) (num_or spread (dist * 0.3))).

Definition cp_at (rnd : nat -> R) (start end_ : Point2D) (spread : option R)
  (side : R) (q : nat) : Point2D :=
  vec.add (vec.lerp start end_ (rnd q * (0.8 - 0.2) + 0.2))
    (vec.setMag (vec.perp (vec.sub end_ start))
       (clamped_spread start end_ spread * (rnd (S q) * (1.0 - 0.3) + 0.3) * side)).

(** What a turn of the scroll loop leaves in the log: a rounded amount and
    the rounding of a draw scaled to [60, 150). *)
Definition scroll_turn (rnd : nat -> R) (t : R * R) : Prop :=
  (exists x, fst t = Math.round x) /\
  (exists q, snd t = Math.round (rnd q * (150 - 60) + 60)).

(** The dot product of two plane vectors. *)
Definition dot (a b : Point2D) : R := px a * px b + py a * py b.

(** The events [moveTo] replays for a path: a move per point, and a
    suspension after it when its delay is positive. *)
Fixpoint path_events (path : list PathPoint) : list Event :=
  match path with
  | [] => []
  | q :: rest =>
      MouseMove (ptx q) (pty q) ::
      (if Rgtb (dt q) 0 then [WaitForTimeout (dt q)] else []) ++ path_events rest
  end.

(** The path [moveTo] plans from [cur] to [target] when the cursor into
    the stream is at [p], and the cursor [p'] it leaves: beyond the
    overshoot threshold one draw decides, above 0.3 for the path with an
    overshoot; otherwise the direct path is planned and no draw is taken. *)
Definition planned_path (rnd : nat -> R) (cur target : Point2D) (moveOpts : Opts)
  (p : nat) (path : list PathPoint) (p' : nat) : Prop :=
  if Rgtb (vec.mag (vec.sub target cur)) (num_coalesce (overshootThreshold moveOpts) 300)
  then if Rgtb (rnd p) 0.3
       then yields (generateOvershootPath rnd cur target moveOpts) (S p) (path, p')
       else yields (generatePath rnd cur target moveOpts) (S p) (path, p')
  else yields (generatePath rnd cur target moveOpts) p (path, p').

(** The targets of the move events of a log, and its key presses, in order. *)
Fixpoint moves (evs : list Event) : list Point2D :=
  match evs with
  | [] => []
  | MouseMove x y :: rest => mkPoint x y :: moves rest
  | _ :: rest => moves rest
  end.

Fixpoint keys (evs : list Event) : list string :=
  match evs with
  | [] => []
  | KeyPress k :: rest => k :: keys rest
  | _ :: rest => keys rest
  end.

(** The characters of a string, each as a one-character string. *)
Fixpoint chars (s : string) : list string :=
  match s with
  | EmptyString => []
  | String c s' => String c EmptyString :: chars s'
  end.

(** The events of the turns of the idle drift: a move to a point and the
    suspension that follows it, per turn. *)
Definition drift_events (turns : list (Point2D * R)) : list Event :=
  flat_map (fun t => [MouseMove (px (fst t)) (py (fst t)); WaitForTimeout (snd t)]) turns.

(** The events the keyboard side may send: a key press or a suspension. *)
Definition key_or_wait (e : Event) : Prop :=
  match e with
  | KeyPress _ => True
  | WaitForTimeout _ => True
  | _ => False
  end.

(** Whether a number is an integer. *)
Definition is_integer (x : R) : Prop := exists z : Z, x = IZR z.

(** * Properties *)

(** ** Rounding *)

Lemma round_bounds (x : R) : x - 0.5 < Math.round x <= x + 0.5.
Proof.
  unfold Math.round, Math.roundZ.
  pose proof (Zfloor_bound (x + 0.5)) as H. lra.
Qed.

Lemma roundZ_eq (x : R) (z : Z) : IZR z - 0.5 <= x < IZR z + 0.5 -> Math.roundZ x = z.
Proof. intros H. unfold Math.roundZ. apply Zfloor_eq. lra. Qed.

Lemma round_eq (x : R) (z : Z) : IZR z - 0.5 <= x < IZR z + 0.5 -> Math.round x = IZR z.
Proof. intros H. unfold Math.round. now rewrite (roundZ_eq x z H). Qed.

Lemma round_IZR (z : Z) : Math.round (IZR z) = IZR z.
Proof. apply round_eq. lra. Qed.

Lemma roundZ_le (x y : R) : x <= y -> (Math.roundZ x <= Math.roundZ y)%Z.
Proof. intros H. unfold Math.roundZ. apply Zfloor_le. lra. Qed.

Lemma round_le (x y : R) : x <= y -> Math.round x <= Math.round y.
Proof. intros H. unfold Math.round. apply IZR_le. now apply roundZ_le. Qed.

(** ** Comparisons *)

Lemma Rltb_true (a b : R) : Rltb a b = true <-> a < b.
Proof. unfold Rltb. destruct (Rlt_dec a b); split; intros; try easy. Qed.

Lemma Rltb_false (a b : R) : Rltb a b = false <-> b <= a.
Proof. unfold Rltb. destruct (Rlt_dec a b); split; intros; try easy; lra. Qed.

Lemma Rgtb_true (a b : R) : Rgtb a b = true <-> b < a.
Proof. unfold Rgtb. destruct (Rlt_dec b a); split; intros; try easy. Qed.

Lemma Rgtb_false (a b : R) : Rgtb a b = false <-> a <= b.
Proof. unfold Rgtb. destruct (Rlt_dec b a); split; intros; try easy; lra. Qed.

Lemma Rleb_true (a b : R) : Rleb a b = true <-> a <= b.
Proof. unfold Rleb. destruct (Rle_dec a b); split; intros; try easy. Qed.

Lemma Rleb_false (a b : R) : Rleb a b = false <-> b < a.
Proof. unfold Rleb. destruct (Rle_dec a b); split; intros; try easy; lra. Qed.

Lemma Rgeb_true (a b : R) : Rgeb a b = true <-> b <= a.
Proof. unfold Rgeb. destruct (Rle_dec b a); split; intros; try easy. Qed.

Lemma Reqb_true (a b : R) : Reqb a b = true <-> a = b.
Proof. unfold Reqb. destruct (Req_dec_T a b); split; intros; try easy. Qed.

Lemma Reqb_false (a b : R) : Reqb a b = false <-> a <> b.
Proof. unfold Reqb. destruct (Req_dec_T a b); split; intros; try easy. Qed.

(** ** Vector math *)

Lemma mag_nonneg (a : Point2D) : 0 <= vec.mag a.
Proof. unfold vec.mag, Math.sqrt. apply sqrt_pos. Qed.

Lemma mag_sqr (a : Point2D) : vec.mag a * vec.mag a = px a * px a + py a * py a.
Proof. unfold vec.mag, Math.sqrt. apply sqrt_sqrt. nra. Qed.

Lemma mag_zero : vec.mag (mkPoint 0 0) = 0.
Proof.
  unfold vec.mag, Math.sqrt. simpl.
  replace (0 * 0 + 0 * 0) with 0 by lra. apply sqrt_0.
Qed.

Lemma mag_eq_0 (a : Point2D) : vec.mag a = 0 -> a = mkPoint 0 0.
Proof.
  intros H. pose proof (mag_sqr a) as Hs. rewrite H in Hs.
  destruct a as [ax ay]. simpl in Hs.
  assert (ax = 0) by nra. assert (ay = 0) by nra. now subst.
Qed.

(** C9. The unit-vector operation never divides by zero: run with every
    division checked it always succeeds and agrees with [vec.unit]; it
    returns the zero vector exactly when the magnitude is zero and the
    vector divided by its magnitude otherwise; [vec.setMag] of the zero
    vector is the zero vector for every magnitude. *)
Theorem vec_unit_total (a : Point2D) (m : R) :
  vec.unit_chk a = Some (vec.unit a) /\
  (vec.mag a = 0 -> vec.unit a = mkPoint 0 0) /\
  (vec.mag a <> 0 -> vec.unit a = mkPoint (px a / vec.mag a) (py a / vec.mag a)) /\
  vec.unit (mkPoint 0 0) = mkPoint 0 0 /\
  vec.setMag (mkPoint 0 0) m = mkPoint 0 0.
Proof.
  assert (Hz : vec.unit (mkPoint 0 0) = mkPoint 0 0).
  { unfold vec.unit. rewrite mag_zero. now destruct (Req_dec_T 0 0). }
  split; [|split; [|split; [|split]]].
  - unfold vec.unit_chk, vec.unit, div_chk.
    destruct (Req_dec_T (vec.mag a) 0); reflexivity.
  - intros H. unfold vec.unit. destruct (Req_dec_T (vec.mag a) 0); [reflexivity | contradiction].
  - intros H. unfold vec.unit. destruct (Req_dec_T (vec.mag a) 0); [contradiction | reflexivity].
  - exact Hz.
  - unfold vec.setMag. rewrite Hz. unfold vec.mult. simpl. f_equal; lra.
Qed.

(** ** The Gaussian sampler *)

Section GaussRandom.
Variable rnd : nat -> R.

Lemma accepted_iff (p : nat) :
  accepted rnd p <-> Rgeb (pair_s rnd p) 1 || Reqb (pair_s rnd p) 0 = false.
Proof.
  unfold accepted, pair_s.
  generalize (pair_u rnd p) (pair_v rnd p). intros u v.
  rewrite orb_false_iff. unfold Rgeb, Reqb.
  destruct (Rle_dec 1 (u * u + v * v)), (Req_dec_T (u * u + v * v) 0);
    split; intros H;
    try (destruct H as [? ?]; discriminate); try (exfalso; lra); try tauto.
  assert (0 <= u * u) by nra.
  assert (0 <= v * v) by nra.
  repeat split; try lra; nra.
Qed.

Lemma gaussRandom_S (fuel p : nat) :
  gaussRandom rnd (S fuel) p =
  if Rgeb (pair_s rnd p) 1 || Reqb (pair_s rnd p) 0
  then gaussRandom rnd fuel (S (S p))
  else Some (deviate rnd p, S (S p)).
Proof.
  cbn [gaussRandom]. unfold bind, Math_random.
  fold (pair_u rnd p). fold (pair_v rnd p). fold (pair_s rnd p).
  destruct (Rgeb (pair_s rnd p) 1 || Reqb (pair_s rnd p) 0); reflexivity.
Qed.

Lemma accepted_dec (p : nat) : {accepted rnd p} + {~ accepted rnd p}.
Proof.
  destruct (Rgeb (pair_s rnd p) 1 || Reqb (pair_s rnd p) 0) eqn:E.
  - right. intros H. apply accepted_iff in H. congruence.
  - left. now apply accepted_iff.
Qed.

(** The loop run from [p] when the first accepted pair is the [k]-th. *)
Lemma gaussRandom_first (k : nat) :
  forall p : nat,
    (forall j, (j < k)%nat -> ~ accepted rnd (p + 2 * j)) ->
    accepted rnd (p + 2 * k) ->
    forall fuel, (k < fuel)%nat ->
      gaussRandom rnd fuel p = Some (deviate rnd (p + 2 * k), (p + 2 * k + 2)%nat).
Proof.
  induction k as [|k IH]; intros p Hrej Hacc fuel Hfuel.
  - destruct fuel as [|fuel]; [lia|].
    rewrite gaussRandom_S.
    replace (p + 2 * 0)%nat with p in * by lia.
    apply accepted_iff in Hacc. rewrite Hacc.
    do 2 f_equal. lia.
  - destruct fuel as [|fuel]; [lia|].
    rewrite gaussRandom_S.
    assert (Hp : ~ accepted rnd p).
    { specialize (Hrej 0%nat). replace (p + 2 * 0)%nat with p in Hrej by lia.
      apply Hrej. lia. }
    destruct (Rgeb (pair_s rnd p) 1 || Reqb (pair_s rnd p) 0) eqn:E.
    + rewrite (IH (S (S p))); try lia.
      * do 2 f_equal; try lia. f_equal. lia.
      * intros j Hj. replace (S (S p) + 2 * j)%nat with (p + 2 * S j)%nat by lia.
        apply Hrej. lia.
      * replace (S (S p) + 2 * k)%nat with (p + 2 * S k)%nat by lia. exact Hacc.
    + exfalso. apply Hp. now apply accepted_iff.
Qed.

Lemma first_accepted (k : nat) :
  forall p : nat, accepted rnd (p + 2 * k) ->
    exists k0, (k0 <= k)%nat /\ accepted rnd (p + 2 * k0) /\
               forall j, (j < k0)%nat -> ~ accepted rnd (p + 2 * j).
Proof.
  induction k as [|k IH]; intros p Hacc.
  - exists 0%nat. split; [lia|]. split; [exact Hacc|]. intros j Hj. lia.
  - destruct (accepted_dec p) as [Hp|Hp].
    + exists 0%nat. split; [lia|]. split.
      * now replace (p + 2 * 0)%nat with p by lia.
      * intros j Hj. lia.
    + destruct (IH (S (S p))) as [k0 [Hle [Hk0 Hrej]]].
      { now replace (S (S p) + 2 * k)%nat with (p + 2 * S k)%nat by lia. }
      exists (S k0). split; [lia|]. split.
      * now replace (p + 2 * S k0)%nat with (S (S p) + 2 * k0)%nat by lia.
      * intros j Hj. destruct j as [|j].
        -- now replace (p + 2 * 0)%nat with p by lia.
        -- replace (p + 2 * S j)%nat with (S (S p) + 2 * j)%nat by lia.
           apply Hrej. lia.
Qed.
End GaussRandom.

(** C8. The rejection loop of the Gaussian sampler terminates: when the
    stream read from cursor [p] has an accepted pair (here the [k]-th),
    there is a first accepted pair, and with any fuel beyond its index
    [gaussRandom] returns [u * sqrt (-2 * ln s / s)] formed from that first
    pair, leaving the cursor just past it.  The result does not depend on
    the fuel: nothing caps the retries. *)
Theorem gaussRandom_terminates (rnd : nat -> R) (p k : nat) :
  accepted rnd (p + 2 * k) ->
  exists k0 : nat,
    (k0 <= k)%nat /\
    accepted rnd (p + 2 * k0) /\
    (forall j, (j < k0)%nat -> ~ accepted rnd (p + 2 * j)) /\
    (forall fuel, (k0 < fuel)%nat ->
       gaussRandom rnd fuel p =
       Some (pair_u rnd (p + 2 * k0) *
               Math.sqrt (-2 * Math.log (pair_s rnd (p + 2 * k0)) / pair_s rnd (p + 2 * k0)),
             (p + 2 * k0 + 2)%nat)) /\
    yields (gaussRandom rnd) p (deviate rnd (p + 2 * k0), (p + 2 * k0 + 2)%nat).
Proof.
  intros Hacc.
  destruct (first_accepted rnd k p Hacc) as [k0 [Hle [Hk0 Hrej]]].
  exists k0. repeat split; try assumption; try apply Hk0.
  - intros fuel Hfuel. now apply gaussRandom_first.
  - exists (S k0). intros f Hf. apply gaussRandom_first; auto.
Qed.

(** ** Computations *)

Lemma bind_Some {St A B} (m : M St A) (k : A -> M St B) (fuel : nat) (s : St) (r : B * St) :
  bind m k fuel s = Some r <->
  exists a s', m fuel s = Some (a, s') /\ k a fuel s' = Some r.
Proof.
  unfold bind. split.
  - destruct (m fuel s) as [[a s']|]; [|discriminate].
    intros H. now exists a, s'.
  - intros [a [s' [Hm Hk]]]. now rewrite Hm.
Qed.

Lemma yields_ret {St A} (a : A) (s : St) : yields (ret a) s (a, s).
Proof. exists 0%nat. reflexivity. Qed.

Lemma yields_bind {St A B} (m : M St A) (k : A -> M St B) s a s' r :
  yields m s (a, s') -> yields (k a) s' r -> yields (bind m k) s r.
Proof.
  intros [f1 H1] [f2 H2]. exists (Nat.max f1 f2). intros f Hf.
  unfold bind. rewrite H1 by lia. apply H2. lia.
Qed.

Lemma yields_det {St A} (m : M St A) s r r' :
  yields m s r -> yields m s r' -> r = r'.
Proof.
  intros [f1 H1] [f2 H2].
  specialize (H1 (Nat.max f1 f2)). specialize (H2 (Nat.max f1 f2)).
  rewrite H1 in H2 by lia. injection H2; auto. lia.
Qed.

Lemma total_ret {St A} (a : A) : total (@ret St A a).
Proof. intros s. eexists. apply yields_ret. Qed.

Lemma total_bind {St A B} (m : M St A) (k : A -> M St B) :
  total m -> (forall a, total (k a)) -> total (bind m k).
Proof.
  intros Hm Hk s. destruct (Hm s) as [[a s'] Ha].
  destruct (Hk a s') as [r Hr]. exists r. eapply yields_bind; eauto.
Qed.

Lemma total_when {St} (b : bool) (m : M St unit) : total m -> total (when b m).
Proof. intros H. destruct b; simpl; auto. apply total_ret. Qed.

Lemma total_for_loop {St} (body : nat -> M St unit) :
  (forall i, total (body i)) -> forall n i, total (for_loop n i body).
Proof.
  intros Hb n. induction n as [|n IH]; intros i; simpl.
  - apply total_ret.
  - apply total_bind; auto.
Qed.

Lemma total_for_collect {St A} (body : nat -> M St A) :
  (forall i, total (body i)) -> forall n i, total (for_collect n i body).
Proof.
  intros Hb n. induction n as [|n IH]; intros i; simpl.
  - apply total_ret.
  - apply total_bind; auto. intros a. apply total_bind; auto.
    intros rest. apply total_ret.
Qed.

Lemma yields_liftR {A} (m : Rand A) (w : World) a p :
  yields m (rng w) (a, p) ->
  yields (liftR m) w (a, mkWorld p (cursorPos w) (ghostCursor w) (events w)).
Proof.
  intros [f0 H]. exists f0. intros f Hf. unfold liftR. now rewrite H.
Qed.

Lemma total_liftR {A} (m : Rand A) : total m -> total (liftR m).
Proof.
  intros H w. destruct (H (rng w)) as [[a p] Hy].
  eexists. apply yields_liftR. eassumption.
Qed.

Lemma total_emit (e : Event) : total (emit e).
Proof. intros w. eexists. exists 0%nat. reflexivity. Qed.

Lemma total_Math_random (rnd : nat -> R) : total (Math_random rnd).
Proof. intros p. eexists. exists 0%nat. reflexivity. Qed.

Lemma total_rand (rnd : nat -> R) (lo hi : R) : total (rand rnd lo hi).
Proof.
  unfold rand. apply total_bind; [apply total_Math_random|].
  intros a. apply total_ret.
Qed.

Lemma total_gaussRandom (rnd : nat -> R) : fair rnd -> total (gaussRandom rnd).
Proof.
  intros Hfair p. destruct (Hfair p) as [k Hk].
  destruct (first_accepted rnd k p Hk) as [k0 [_ [Hk0 Hrej]]].
  eexists. exists (S k0). intros f Hf.
  apply gaussRandom_first; eauto.
Qed.

Lemma total_gauss (rnd : nat -> R) (mean stddev : R) :
  fair rnd -> total (gauss rnd mean stddev).
Proof.
  intros Hfair. unfold gauss. apply total_bind.
  - now apply total_gaussRandom.
  - intros a. apply total_ret.
Qed.

Lemma total_pause (rnd : nat -> R) (lo hi : R) : total (pause rnd lo hi).
Proof.
  unfold pause. apply total_bind.
  - apply total_liftR, total_rand.
  - intros a. apply total_emit.
Qed.

Lemma runs_ret {St A} (a : A) (s : St) (Q : A -> St -> Prop) :
  Q a s -> runs (ret a) s Q.
Proof. intros H. exists a, s. split; [apply yields_ret | exact H]. Qed.

Lemma runs_bind {St A B} (m : M St A) (k : A -> M St B) (s : St) (Q : B -> St -> Prop) :
  runs m s (fun a s' => runs (k a) s' Q) -> runs (bind m k) s Q.
Proof.
  intros [a [s' [Hm [b [s'' [Hk HQ]]]]]].
  exists b, s''. split; [eapply yields_bind; eauto | exact HQ].
Qed.

Lemma runs_weaken {St A} (m : M St A) (s : St) (P Q : A -> St -> Prop) :
  runs m s P -> (forall a s', P a s' -> Q a s') -> runs m s Q.
Proof. intros [a [s' [Hm HP]]] H. exists a, s'. auto. Qed.

Lemma runs_total {St A} (m : M St A) (s : St) : total m -> runs m s (fun _ _ => True).
Proof. intros H. destruct (H s) as [[a s'] Hy]. now exists a, s'. Qed.

Lemma runs_liftR {A} (m : Rand A) (w : World) (Q : A -> World -> Prop) :
  runs m (rng w) (fun a p => Q a (mkWorld p (cursorPos w) (ghostCursor w) (events w))) ->
  runs (liftR m) w Q.
Proof.
  intros [a [p [Hm HQ]]]. eexists _, _. split; [apply yields_liftR; eassumption | exact HQ].
Qed.

Lemma runs_emit (e : Event) (w : World) (Q : unit -> World -> Prop) :
  Q tt (mkWorld (rng w) (cursorPos w) (ghostCursor w) (events w ++ [e])) ->
  runs (emit e) w Q.
Proof. intros H. eexists _, _. split; [exists 0%nat; reflexivity | exact H]. Qed.

Lemma runs_Math_random (rnd : nat -> R) (p : nat) (Q : R -> nat -> Prop) :
  Q (rnd p) (S p) -> runs (Math_random rnd) p Q.
Proof. intros H. eexists _, _. split; [exists 0%nat; reflexivity | exact H]. Qed.

Lemma runs_rand (rnd : nat -> R) (lo hi : R) (p : nat) (Q : R -> nat -> Prop) :
  Q (rnd p * (hi - lo) + lo) (S p) -> runs (rand rnd lo hi) p Q.
Proof.
  intros H. unfold rand. apply runs_bind, runs_Math_random, runs_ret. exact H.
Qed.

Lemma runs_gauss (rnd : nat -> R) (mean stddev : R) (p : nat) (Q : R -> nat -> Prop) :
  fair rnd -> (forall g p', Q g p') -> runs (gauss rnd mean stddev) p Q.
Proof.
  intros Hfair H. eapply runs_weaken.
  - apply runs_total. now apply total_gauss.
  - intros a s' _. apply H.
Qed.

Lemma runs_pause (rnd : nat -> R) (lo hi : R) (w : World) (Q : unit -> World -> Prop) :
  Q tt (mkWorld (S (rng w)) (cursorPos w) (ghostCursor w)
          (events w ++ [WaitForTimeout (Math.round (rnd (rng w) * (hi - lo) + lo))])) ->
  runs (pause rnd lo hi) w Q.
Proof.
  intros H. unfold pause. apply runs_bind, runs_liftR, runs_rand, runs_emit. exact H.
Qed.

(** ** Control points *)

Lemma mag_perp (a : Point2D) : vec.mag (vec.perp a) = vec.mag a.
Proof.
  unfold vec.mag, vec.perp. simpl. f_equal. ring.
Qed.

Lemma mag_sub_pos (a b : Point2D) : a <> b -> 0 < vec.mag (vec.sub b a).
Proof.
  intros Hne. destruct (mag_nonneg (vec.sub b a)) as [H|H]; [exact H|].
  exfalso. apply Hne. symmetry in H. apply mag_eq_0 in H.
  destruct a as [ax ay], b as [bx0 by0]. unfold vec.sub in H. simpl in H.
  injection H. intros. f_equal; lra.
Qed.

(** A control point built by [makeCP] with signed offset [k] lies at cross
    product [k * dist] from the line. *)
Lemma control_point_side (start end_ : Point2D) (t k : R) :
  start <> end_ ->
  side_of start end_
    (vec.add (vec.lerp start end_ t) (vec.setMag (vec.perp (vec.sub end_ start)) k))
  = k * vec.mag (vec.sub end_ start).
Proof.
  intros Hne. pose proof (mag_sub_pos _ _ Hne) as Hpos.
  pose proof (mag_sqr (vec.sub end_ start)) as Hsq.
  unfold vec.setMag, vec.unit. rewrite mag_perp.
  destruct (Req_dec_T (vec.mag (vec.sub end_ start)) 0) as [E|E]; [lra|].
  set (d := vec.mag (vec.sub end_ start)) in *.
  destruct start as [sx sy], end_ as [ex ey].
  unfold side_of, cross2, vec.add, vec.lerp, vec.mult, vec.perp, vec.sub in *.
  simpl in *.
  transitivity (k * ((ex - sx) * (ex - sx) + (ey - sy) * (ey - sy)) / d).
  - field. exact E.
  - rewrite <- Hsq. field. exact E.
Qed.

Section ControlPoints.
Variable rnd : nat -> R.
Variables start end_ : Point2D.
Variable spread : option R.

Let dir := vec.sub end_ start.
Let dist := vec.mag dir.
Let clampedSpread := clamped_spread start end_ spread.

Lemma bezierControlPoints_eq (fuel p : nat) :
  bezierControlPoints rnd start end_ spread fuel p =
  Some (if Rleb (proj start dir dist (cp_at rnd start end_ spread (side_at rnd p) (S p)))
                (proj start dir dist (cp_at rnd start end_ spread (side_at rnd p) (S (S (S p)))))
        then [cp_at rnd start end_ spread (side_at rnd p) (S p); cp_at rnd start end_ spread (side_at rnd p) (S (S (S p)))]
        else [cp_at rnd start end_ spread (side_at rnd p) (S (S (S p))); cp_at rnd start end_ spread (side_at rnd p) (S p)],
        S (S (S (S (S p))))).
Proof. reflexivity. Qed.

Lemma clampedSpread_pos : 2 <= clampedSpread.
Proof. unfold clampedSpread, clamped_spread, Math.max. apply Rmax_l. Qed.

Lemma cp_at_side (q p : nat) :
  in_range rnd -> start <> end_ ->
  (side_at rnd p = 1 /\ 0 < side_of start end_ (cp_at rnd start end_ spread (side_at rnd p) q)) \/
  (side_at rnd p = -1 /\ side_of start end_ (cp_at rnd start end_ spread (side_at rnd p) q) < 0).
Proof.
  intros Hr Hne. unfold cp_at. fold clampedSpread.  rewrite (control_point_side _ _ _ _ Hne).
  pose proof (mag_sub_pos _ _ Hne) as Hd. fold dir in Hd |- *. fold dist in Hd |- *.
  pose proof clampedSpread_pos as Hc.
  pose proof (Hr (S q)) as Hq.
  assert (Hk : 0 < clampedSpread * (rnd (S q) * (1.0 - 0.3) + 0.3)) by nra.
  unfold side_at. destruct (Rgtb (rnd p) 0.5); [left|right]; split; auto; nra.
Qed.

Lemma proj_scalar (a b : Point2D) :
  start <> end_ ->
  proj start dir dist a <= proj start dir dist b ->
  scalar_projection start end_ a <= scalar_projection start end_ b.
Proof.
  intros Hne. pose proof (mag_sub_pos _ _ Hne) as Hd. fold dir in Hd. fold dist in Hd.
  unfold proj, scalar_projection. fold dir. fold dist. cbv zeta.
  set (da := px (vec.sub a start) * px dir + py (vec.sub a start) * py dir).
  set (db := px (vec.sub b start) * px dir + py (vec.sub b start) * py dir).
  intros H.
  assert (Ea : da / dist = da / (dist * dist) * dist) by (field; lra).
  assert (Eb : db / dist = db / (dist * dist) * dist) by (field; lra).
  rewrite Ea, Eb. nra.
Qed.
End ControlPoints.

(** C7. For [start <> end] and draws in [0, 1), [bezierControlPoints]
    returns exactly two points; the cross products of (point - start) with
    (end - start) have the same nonzero sign for both, and the first point's
    scalar projection onto the start->end direction is at most the
    second's (for the projection the source computes and for the scalar
    projection proper). *)
Theorem bezierControlPoints_same_side
  (rnd : nat -> R) (start end_ : Point2D) (spread : option R) (fuel p : nat) :
  in_range rnd -> start <> end_ ->
  exists cp1 cp2 : Point2D,
    bezierControlPoints rnd start end_ spread fuel p = Some ([cp1; cp2], (p + 5)%nat) /\
    same_sign (side_of start end_ cp1) (side_of start end_ cp2) /\
    proj start (vec.sub end_ start) (vec.mag (vec.sub end_ start)) cp1
      <= proj start (vec.sub end_ start) (vec.mag (vec.sub end_ start)) cp2 /\
    scalar_projection start end_ cp1 <= scalar_projection start end_ cp2.
Proof.
  intros Hr Hne. rewrite bezierControlPoints_eq.
  replace (S (S (S (S (S p))))) with (p + 5)%nat by lia.
  set (s := side_at rnd p).
  set (a := cp_at rnd start end_ spread s (S p)).
  set (b := cp_at rnd start end_ spread s (S (S (S p)))).
  assert (Hab : same_sign (side_of start end_ a) (side_of start end_ b)).
  { unfold same_sign, a, b, s.
    destruct (cp_at_side rnd start end_ spread (S p) p Hr Hne) as [[E1 H1]|[E1 H1]];
    destruct (cp_at_side rnd start end_ spread (S (S (S p))) p Hr Hne) as [[E2 H2]|[E2 H2]];
      try (rewrite E1 in E2; exfalso; lra); [left|right]; split; assumption. }
  destruct (Rleb _ _) eqn:E.
  - exists a, b. apply Rleb_true in E. repeat split; auto.
    now apply proj_scalar.
  - exists b, a. apply Rleb_false in E.
    assert (Hle : proj start (vec.sub end_ start) (vec.mag (vec.sub end_ start)) b
                  <= proj start (vec.sub end_ start) (vec.mag (vec.sub end_ start)) a) by lra.
    repeat split; auto.
    + destruct Hab as [[? ?]|[? ?]]; [left|right]; split; assumption.
    + now apply proj_scalar.
Qed.

Lemma bezierControlPoints_same_side_witness :
  exists cp1 cp2 : Point2D,
    bezierControlPoints (fun _ => 0.25) (mkPoint 0 0) (mkPoint 1 0) None 0%nat 0%nat
      = Some ([cp1; cp2], (0 + 5)%nat) /\
    same_sign (side_of (mkPoint 0 0) (mkPoint 1 0) cp1) (side_of (mkPoint 0 0) (mkPoint 1 0) cp2) /\
    proj (mkPoint 0 0) (vec.sub (mkPoint 1 0) (mkPoint 0 0))
         (vec.mag (vec.sub (mkPoint 1 0) (mkPoint 0 0))) cp1
      <= proj (mkPoint 0 0) (vec.sub (mkPoint 1 0) (mkPoint 0 0))
           (vec.mag (vec.sub (mkPoint 1 0) (mkPoint 0 0))) cp2 /\
    scalar_projection (mkPoint 0 0) (mkPoint 1 0) cp1
      <= scalar_projection (mkPoint 0 0) (mkPoint 1 0) cp2.
Proof.
  apply (bezierControlPoints_same_side (fun _ => 0.25) (mkPoint 0 0) (mkPoint 1 0) None 0%nat 0%nat).
  - intros i. lra.
  - intros H. injection H. lra.
Defined.

Lemma gaussRandom_terminates_witness :
  exists k0 : nat,
    (k0 <= 0)%nat /\
    accepted (fun _ => 0.3) (0 + 2 * k0) /\
    (forall j, (j < k0)%nat -> ~ accepted (fun _ => 0.3) (0 + 2 * j)) /\
    (forall fuel, (k0 < fuel)%nat ->
       gaussRandom (fun _ => 0.3) fuel 0%nat =
       Some (pair_u (fun _ => 0.3) (0 + 2 * k0) *
               Math.sqrt (-2 * Math.log (pair_s (fun _ => 0.3) (0 + 2 * k0))
                          / pair_s (fun _ => 0.3) (0 + 2 * k0)),
             (0 + 2 * k0 + 2)%nat)) /\
    yields (gaussRandom (fun _ => 0.3)) 0%nat
      (deviate (fun _ => 0.3) (0 + 2 * k0), (0 + 2 * k0 + 2)%nat).
Proof.
  apply (gaussRandom_terminates (fun _ => 0.3) 0%nat 0%nat).
  unfold accepted, pair_s, pair_u, pair_v. lra.
Defined.

(** ** Path generation *)

Lemma turns_le_ge (b : R) (k : Z) : IZR k <= b -> (Z.to_nat (k + 1) <= turns_le b)%nat.
Proof.
  intros H. unfold turns_le. apply Zfloor_lub in H. lia.
Qed.

Lemma turns_le_INR (k : nat) : turns_le (INR k) = S k.
Proof.
  unfold turns_le. rewrite INR_IZR_INZ.
  rewrite (Zfloor_eq (Z.of_nat k)) by lra. lia.
Qed.

Lemma set_last_length {A} (l : list A) (v : A) : List.length (set_last l v) = List.length l.
Proof.
  destruct l as [|a l]; [reflexivity|].
  unfold set_last. rewrite length_app.
  assert (H : a :: l <> []) by discriminate.
  destruct (exists_last H) as [l' [x E]]. rewrite E.
  rewrite removelast_last, length_app. reflexivity.
Qed.

Lemma set_last_last {A} (l : list A) (v d : A) :
  l <> [] -> last (set_last l v) d = v /\ set_last l v <> [].
Proof.
  intros H. destruct l as [|a l]; [congruence|].
  unfold set_last. rewrite last_last. split; [reflexivity|].
  intros E. apply app_eq_nil in E. destruct E; discriminate.
Qed.

Lemma runs_for_collect {St A} (body : nat -> M St A) (P : A -> Prop) :
  (forall i s, runs (body i) s (fun a _ => P a)) ->
  forall n i s, runs (for_collect n i body) s
                  (fun l _ => List.length l = n /\ Forall P l).
Proof.
  intros Hb n. induction n as [|n IH]; intros i s; simpl.
  - apply runs_ret. split; [reflexivity | constructor].
  - apply runs_bind. eapply runs_weaken; [apply Hb|].
    intros a s' Ha. apply runs_bind. eapply runs_weaken; [apply IH|].
    intros l s'' [Hl HP]. apply runs_ret. simpl. split; [congruence | now constructor].
Qed.

Lemma runs_bezierControlPoints rnd start end_ spread p (Q : list Point2D -> nat -> Prop) :
  (forall cps, Q cps (S (S (S (S (S p)))))) ->
  runs (bezierControlPoints rnd start end_ spread) p Q.
Proof.
  intros H. eexists _, _. split; [|apply H].
  exists 0%nat. intros f _. apply bezierControlPoints_eq.
Qed.

Lemma log2_pos (x : R) : 0 < x -> Math.log2 x = Fin (ln x / ln 2).
Proof. intros H. unfold Math.log2. destruct (Rlt_dec 0 x); [reflexivity | contradiction]. Qed.

Lemma log2_neg (x : R) : x < 0 -> Math.log2 x = NaN.
Proof.
  intros H. unfold Math.log2. destruct (Rlt_dec 0 x); [lra|].
  destruct (Req_dec_T x 0); [lra | reflexivity].
Qed.

Lemma target_width_pos (opts : Opts) : width_ok opts -> 0 < target_width opts.
Proof.
  intros H. unfold width_ok, target_width in *. destruct (targetWidth opts) as [w|] eqn:E; [|lra].
  destruct (Req_dec_T w 0); [lra|]. specialize (H w eq_refl). lra.
Qed.

Lemma fitts_arg_pos (opts : Opts) (dist : R) :
  width_ok opts -> 0 <= dist -> 1 <= dist / target_width opts + 1.
Proof.
  intros Hw Hd. pose proof (target_width_pos opts Hw) as Ht.
  assert (Hi : 0 < / target_width opts) by now apply Rinv_0_lt_compat.
  unfold Rdiv. nra.
Qed.

(** Where the logarithm is of a positive number the step count is a real. *)
Lemma step_count_real_eq rnd opts dist p :
  0 < dist / target_width opts + 1 ->
  step_count rnd opts dist p = Fin (step_count_real rnd opts dist p).
Proof.
  intros H. unfold step_count, step_count_real, fitts_steps.
  fold (target_width opts). rewrite (log2_pos _ H).
  destruct (steps opts) as [s|]; [destruct (Req_dec_T s 0)|]; reflexivity.
Qed.

Lemma step_count_given rnd opts dist p s :
  steps opts = Some s -> s <> 0 -> step_count rnd opts dist p = Fin s.
Proof.
  intros Hs Hne. unfold step_count. rewrite Hs.
  destruct (Req_dec_T s 0); [contradiction | reflexivity].
Qed.

Lemma fitts_steps_ge (dist tw r : R) : 15 <= fitts_steps dist tw r.
Proof. unfold fitts_steps. apply Rmax_l. Qed.

Lemma fitts_steps_integer (dist tw r : R) : is_integer (fitts_steps dist tw r).
Proof.
  unfold fitts_steps, Rmax. destruct (Rle_dec _ _);
    [eexists; reflexivity | exists 15%Z; reflexivity].
Qed.

(** The step count the formula gives for a target width that is not
    negative: a whole number of at least 15. *)
Lemma step_count_auto rnd opts dist p :
  width_ok opts -> 0 <= dist ->
  steps opts = None \/ steps opts = Some 0 ->
  exists n : R,
    step_count rnd opts dist p = Fin n /\ 15 <= n /\ is_integer n /\
    n = fitts_steps dist (target_width opts) (rnd p * (15 - 5) + 5).
Proof.
  intros Hw Hd Hs. exists (fitts_steps dist (target_width opts) (rnd p * (15 - 5) + 5)).
  split.
  - rewrite step_count_real_eq by (pose proof (fitts_arg_pos opts dist Hw Hd); lra).
    unfold step_count_real. destruct Hs as [Hs|Hs]; rewrite Hs; [reflexivity|].
    destruct (Req_dec_T 0 0); [reflexivity | contradiction].
  - split; [apply fitts_steps_ge|]. split; [apply fitts_steps_integer | reflexivity].
Qed.

Lemma runs_baseSteps rnd opts dist p (Q : JsNumber -> nat -> Prop) :
  (forall p', Q (step_count rnd opts dist p) p') ->
  runs (baseSteps rnd opts dist) p Q.
Proof.
  intros H. unfold baseSteps, step_count, truthy, num_or, Reqb in *.
  destruct (steps opts) as [s|].
  - destruct (Req_dec_T s 0); simpl.
    + apply runs_bind, runs_rand, runs_ret.
      destruct (targetWidth opts) as [w|]; [destruct (Req_dec_T w 0)|]; apply H.
    + apply runs_ret, H.
  - apply runs_bind, runs_rand, runs_ret.
    destruct (targetWidth opts) as [w|]; [destruct (Req_dec_T w 0)|]; apply H.
Qed.

(** A point of the sampling loop: pixel coordinates and a whole,
    non-negative delay. *)
Lemma runs_pathStep rnd from to cp1 cp2 tremor bs i p :
  fair rnd ->
  runs (pathStep rnd from to cp1 cp2 tremor bs i) p
    (fun q _ => is_integer (ptx q) /\ is_integer (pty q) /\ is_integer (dt q)).
Proof.
  intros Hfair. unfold pathStep.
  apply runs_bind, runs_gauss; auto. intros jx p1.
  apply runs_bind, runs_gauss; auto. intros jy p2.
  apply runs_bind, runs_rand, runs_ret. simpl.
  unfold is_integer, Math.round. repeat split; eexists; reflexivity.
Qed.

(** The sampling loop: a point per turn, none when the bound is not a
    real. *)
Lemma runs_sample_loop rnd from to cp1 cp2 tremor (b : JsNumber) (P : PathPoint -> Prop) p :
  (forall bs i s, runs (pathStep rnd from to cp1 cp2 tremor bs i) s (fun a _ => P a)) ->
  runs (match b with
        | Fin bs => for_collect (turns_le bs) 0 (pathStep rnd from to cp1 cp2 tremor bs)
        | NaN => ret []
        | NegInf => ret []
        end) p
    (fun pts _ => List.length pts = turns_num b /\ Forall P pts).
Proof.
  intros H. destruct b as [bs| |]; cbn [turns_num].
  - apply runs_for_collect. intros i s. apply H.
  - apply runs_ret. split; [reflexivity | constructor].
  - apply runs_ret. split; [reflexivity | constructor].
Qed.

(** The shape of a path between points at least a pixel apart. *)
Lemma generatePath_far rnd from to opts p :
  fair rnd -> 1 <= vec.mag (vec.sub to from) ->
  runs (generatePath rnd from to opts) p
    (fun path _ =>
       exists pts q,
         List.length pts = turns_num (step_count rnd opts (vec.mag (vec.sub to from)) p) /\
         Forall (fun a => is_integer (ptx a) /\ is_integer (pty a) /\ is_integer (dt a)) pts /\
         path = set_last pts
                  (mkPathPoint (Math.round (px to)) (Math.round (py to)) (rnd q * (6 - 2) + 2))).
Proof.
  intros Hfair Hd. unfold generatePath.
  apply Rltb_false in Hd. rewrite Hd.
  apply runs_bind, runs_baseSteps. intros p1.
  apply runs_bind, runs_bezierControlPoints. intros cps.
  apply runs_bind. eapply runs_weaken.
  - apply runs_sample_loop. intros bs i s. now apply runs_pathStep.
  - intros pts p2 [Hlen Hall]. apply runs_bind, runs_rand, runs_ret.
    exists pts, p2. auto.
Qed.

Lemma total_generatePath rnd from to opts : fair rnd -> total (generatePath rnd from to opts).
Proof.
  intros Hfair p. unfold generatePath.
  destruct (Rltb (vec.mag (vec.sub to from)) 1) eqn:E.
  - eexists. apply yields_ret.
  - apply Rltb_false in E.
    destruct (generatePath_far rnd from to opts p Hfair E) as [a [s' [Hy _]]].
    unfold generatePath in Hy. apply Rltb_false in E. rewrite E in Hy. eauto.
Qed.

(** With a step count that is not negative the path is non-empty and ends
    at the rounded target. *)
Lemma generatePath_last_snapped rnd from to opts p (n : R) :
  fair rnd -> 1 <= vec.mag (vec.sub to from) ->
  step_count rnd opts (vec.mag (vec.sub to from)) p = Fin n -> 0 <= n ->
  runs (generatePath rnd from to opts) p
    (fun path _ =>
       path <> [] /\
       ptx (last path (mkPathPoint 0 0 0)) = Math.round (px to) /\
       pty (last path (mkPathPoint 0 0 0)) = Math.round (py to)).
Proof.
  intros Hfair Hd Hfin Hs. eapply runs_weaken; [now apply generatePath_far|].
  cbv beta. intros path _ [pts [q [Hlen [_ Hpath]]]].
  rewrite Hfin in Hlen. cbn [turns_num] in Hlen.
  pose proof (turns_le_ge _ 0 Hs) as H1. rewrite <- Hlen in H1.
  assert (Hne : pts <> []) by (intros E; subst pts; simpl in H1; lia).
  destruct (set_last_last pts
              (mkPathPoint (Math.round (px to)) (Math.round (py to)) (rnd q * (6 - 2) + 2))
              (mkPathPoint 0 0 0) Hne) as [Hl Hn].
  rewrite <- Hpath in Hl, Hn. rewrite Hl. simpl. auto.
Qed.

(** A negative [steps] leaves the loop without a turn, and the snap then
    writes index -1: the path is empty. *)
Lemma generatePath_negative_steps_empty rnd from to opts p s :
  fair rnd -> 1 <= vec.mag (vec.sub to from) ->
  steps opts = Some s -> s < 0 ->
  runs (generatePath rnd from to opts) p (fun path _ => path = []).
Proof.
  intros Hfair Hd Hs Hneg. eapply runs_weaken; [now apply generatePath_far|].
  cbv beta. intros path _ [pts [q [Hlen [_ Hpath]]]].
  assert (E : step_count rnd opts (vec.mag (vec.sub to from)) p = Fin s).
  { apply step_count_given; [exact Hs | lra]. }
  rewrite E in Hlen. cbn [turns_num] in Hlen. unfold turns_le in Hlen.
  pose proof (Zfloor_bound s) as [Hb _].
  assert (Hz : (Zfloor s < 0)%Z) by (apply lt_IZR; lra).
  assert (Hl0 : List.length pts = 0%nat) by lia.
  destruct pts; [|discriminate]. subst path. reflexivity.
Qed.

(** A negative [targetWidth] smaller in size than the distance makes the
    logarithm NaN, and with it the step count: the loop has no turn and the
    path is empty. *)
Lemma generatePath_nan_empty rnd from to opts p :
  fair rnd -> 1 <= vec.mag (vec.sub to from) ->
  steps opts = None \/ steps opts = Some 0 ->
  vec.mag (vec.sub to from) / target_width opts + 1 < 0 ->
  step_count rnd opts (vec.mag (vec.sub to from)) p = NaN /\
  runs (generatePath rnd from to opts) p (fun path _ => path = []).
Proof.
  intros Hfair Hd Hs Hneg.
  assert (E : step_count rnd opts (vec.mag (vec.sub to from)) p = NaN).
  { unfold step_count. fold (target_width opts). rewrite (log2_neg _ Hneg).
    destruct Hs as [Hs|Hs]; rewrite Hs; [reflexivity|].
    destruct (Req_dec_T 0 0); [reflexivity | contradiction]. }
  split; [exact E|].
  eapply runs_weaken; [now apply generatePath_far|].
  cbv beta. intros path _ [pts [q [Hlen [_ Hpath]]]].
  rewrite E in Hlen. cbn [turns_num] in Hlen.
  destruct pts; [|discriminate]. subst path. reflexivity.
Qed.

Lemma const_fair (c : R) : 0 < c < 1 -> (c * 2 - 1) * (c * 2 - 1) < 0.5 -> c <> 0.5 ->
  fair (fun _ => c).
Proof.
  intros Hc Hs Hne p. exists 0%nat. unfold accepted, pair_s, pair_u, pair_v.
  assert (0 < (c * 2 - 1) * (c * 2 - 1)) by nra.
  repeat split; lra.
Qed.

Lemma fair_03 : fair (fun _ => 0.3).
Proof. apply const_fair; lra. Qed.

Lemma mag_100 : vec.mag (vec.sub (mkPoint 100 0) (mkPoint 0 0)) = 100.
Proof.
  unfold vec.mag, vec.sub, Math.sqrt. simpl.
  replace ((100 - 0) * (100 - 0) + (0 - 0) * (0 - 0)) with (100 * 100) by lra.
  apply sqrt_square. lra.
Qed.

Lemma not_integer_between (x : R) (z : Z) : IZR z < x < IZR z + 1 -> ~ is_integer x.
Proof.
  intros [H1 H2] [k Hk]. subst x.
  apply lt_IZR in H1. rewrite <- plus_IZR in H2. apply lt_IZR in H2. lia.
Qed.

(** C1. The path is not always at the rounded target: for a move of less
    than a pixel [generatePath] returns the target as given.  From (0,0) to
    (0.4,0.3) the path is the single point (0.4,0.3), while the rounded
    target is (0,0). *)
Theorem generatePath_degenerate_unrounded (rnd : nat -> R) (fuel p : nat) :
  generatePath rnd (mkPoint 0 0) (mkPoint 0.4 0.3) no_opts fuel p
    = Some ([mkPathPoint 0.4 0.3 0], p) /\
  Math.round 0.4 = 0 /\ Math.round 0.3 = 0 /\
  ptx (last [mkPathPoint 0.4 0.3 0] (mkPathPoint 0 0 0)) <> Math.round 0.4.
Proof.
  assert (R4 : Math.round 0.4 = 0) by (apply (round_eq 0.4 0); lra).
  assert (R3 : Math.round 0.3 = 0) by (apply (round_eq 0.3 0); lra).
  repeat split; auto.
  - unfold generatePath.
    assert (H : Rltb (vec.mag (vec.sub (mkPoint 0.4 0.3) (mkPoint 0 0))) 1 = true).
    { apply Rltb_true.
      pose proof (mag_sqr (vec.sub (mkPoint 0.4 0.3) (mkPoint 0 0))) as Hs.
      pose proof (mag_nonneg (vec.sub (mkPoint 0.4 0.3) (mkPoint 0 0))) as Hn.
      simpl in Hs. nra. }
    rewrite H. reflexivity.
  - simpl. rewrite R4. lra.
Qed.

(** C4. Not every delay of a path is a whole number: the final point takes
    [rand(2, 6)] unrounded.  From (0,0) to (100,0) with default options and
    every draw 0.3 the path returned is non-empty and its last point has
    [dt = 3.2]. *)
Theorem generatePath_final_dt_not_integer (p : nat) :
  runs (generatePath (fun _ => 0.3) (mkPoint 0 0) (mkPoint 100 0) no_opts) p
    (fun path _ =>
       path <> [] /\
       dt (last path (mkPathPoint 0 0 0)) = 3.2 /\
       ~ is_integer (dt (last path (mkPathPoint 0 0 0)))).
Proof.
  eapply runs_weaken.
  - apply generatePath_far; [apply fair_03 | rewrite mag_100; lra].
  - intros path _ [pts [q [Hlen [_ Hpath]]]].
    assert (Hne : pts <> []).
    { intros E. subst pts. simpl in Hlen.
      destruct (step_count_auto (fun _ => 0.3) no_opts
                  (vec.mag (vec.sub (mkPoint 100 0) (mkPoint 0 0))) p)
        as [n [Hn [H15 _]]].
      - intros w Hw. discriminate Hw.
      - rewrite mag_100. lra.
      - now left.
      - rewrite Hn in Hlen. cbn [turns_num] in Hlen.
        pose proof (turns_le_ge n 15 H15) as H16.
        rewrite <- Hlen in H16. simpl in H16. lia. }
    destruct (set_last_last pts
                (mkPathPoint (Math.round 100) (Math.round 0) (0.3 * (6 - 2) + 2))
                (mkPathPoint 0 0 0) Hne) as [Hl Hn].
    simpl in Hpath. rewrite <- Hpath in Hl, Hn.
    rewrite Hl. simpl. repeat split; auto; try lra.
    apply (not_integer_between _ 3). lra.
Qed.

Lemma generatePath_length rnd from to opts p :
  fair rnd -> 1 <= vec.mag (vec.sub to from) ->
  runs (generatePath rnd from to opts) p
    (fun path _ =>
       List.length path = turns_num (step_count rnd opts (vec.mag (vec.sub to from)) p)).
Proof.
  intros Hfair Hd. eapply runs_weaken; [now apply generatePath_far|].
  intros path _ [pts [q [Hlen [_ Hpath]]]]. subst path.
  now rewrite set_last_length.
Qed.

Lemma log2_zero : Math.log2 0 = NegInf.
Proof.
  unfold Math.log2. destruct (Rlt_dec 0 0); [lra|].
  destruct (Req_dec_T 0 0); [reflexivity | contradiction].
Qed.

(** The step count the formula gives, by the sign of the number whose
    logarithm it takes. *)
Lemma step_count_formula rnd opts dist p :
  steps opts = None \/ steps opts = Some 0 ->
  (0 < dist / target_width opts + 1 ->
     step_count rnd opts dist p
     = Fin (fitts_steps dist (target_width opts) (rnd p * (15 - 5) + 5))) /\
  (dist / target_width opts + 1 = 0 -> step_count rnd opts dist p = Fin 15) /\
  (dist / target_width opts + 1 < 0 -> step_count rnd opts dist p = NaN).
Proof.
  intros Hs.
  assert (E : step_count rnd opts dist p =
              match Math.log2 (dist / target_width opts + 1) with
              | Fin f => Fin (Math.max 15 (Math.round (f * 18 + (rnd p * (15 - 5) + 5))))
              | NaN => NaN
              | NegInf => Fin 15
              end).
  { unfold step_count. fold (target_width opts).
    destruct Hs as [Hs|Hs]; rewrite Hs; [reflexivity|].
    destruct (Req_dec_T 0 0); [reflexivity | contradiction]. }
  rewrite E. split; [|split]; intros H.
  - rewrite (log2_pos _ H). reflexivity.
  - rewrite H, log2_zero. reflexivity.
  - rewrite (log2_neg _ H). reflexivity.
Qed.

Lemma fitts_steps_nat (dist tw r : R) :
  exists k : nat, fitts_steps dist tw r = INR k /\ (15 <= k)%nat.
Proof.
  destruct (fitts_steps_integer dist tw r) as [z Hz].
  pose proof (fitts_steps_ge dist tw r) as H15. rewrite Hz in H15.
  apply le_IZR in H15.
  exists (Z.to_nat z). split; [|lia].
  rewrite Hz, INR_IZR_INZ, Z2Nat.id by lia. reflexivity.
Qed.

(** C5, as the code has it.  Between points at least a pixel apart, the
    step count of [generatePath] is [config.steps] when that is given and
    not zero, and the path has one point per turn of
    [for (i = 0; i <= steps; i++)]: [steps + 1] points for a whole step
    count that is not negative.  When [config.steps] is absent or zero the
    count is
    [max(15, round(log2(distance/targetWidth + 1) * 18 + uniform(5,15)))],
    with [targetWidth] 50 when absent or zero.  Where
    [distance/targetWidth + 1] is positive (as it is for every positive
    target width) that is a whole number of at least 15, and the path has
    that many points and one more; where it is zero the logarithm is
    -Infinity, the count is 15 and the path has 16 points; where it is
    negative the logarithm and the count are NaN and the path is empty. *)
Theorem generatePath_step_count
  (rnd : nat -> R) (from to : Point2D) (opts : Opts) (p : nat) :
  fair rnd -> 1 <= vec.mag (vec.sub to from) ->
  let dist := vec.mag (vec.sub to from) in
  let tw := match targetWidth opts with
            | Some w => if Req_dec_T w 0 then 50 else w
            | None => 50
            end in
  let formula :=
    Rmax 15 (Math.round (ln (dist / tw + 1) / ln 2 * 18 + (rnd p * (15 - 5) + 5))) in
  (forall s : R, steps opts = Some s -> s <> 0 ->
     runs (baseSteps rnd opts dist) p (fun b _ => b = Fin s) /\
     runs (generatePath rnd from to opts) p
       (fun path _ =>
          List.length path = turns_le s /\
          forall k : nat, s = INR k -> List.length path = S k)) /\
  (steps opts = None \/ steps opts = Some 0 ->
     (0 < tw -> 0 < dist / tw + 1) /\
     (0 < dist / tw + 1 ->
        runs (baseSteps rnd opts dist) p (fun b _ => b = Fin formula) /\
        exists k : nat,
          formula = INR k /\ (15 <= k)%nat /\
          runs (generatePath rnd from to opts) p
            (fun path _ => List.length path = S k)) /\
     (dist / tw + 1 = 0 ->
        runs (baseSteps rnd opts dist) p (fun b _ => b = Fin 15) /\
        runs (generatePath rnd from to opts) p
          (fun path _ => List.length path = 16%nat)) /\
     (dist / tw + 1 < 0 ->
        runs (baseSteps rnd opts dist) p (fun b _ => b = NaN) /\
        runs (generatePath rnd from to opts) p (fun path _ => path = []))).
Proof.
  intros Hfair Hd dist tw formula.
  change tw with (target_width opts) in *.
  change formula with (fitts_steps dist (target_width opts) (rnd p * (15 - 5) + 5)) in *.
  clear formula tw. subst dist.
  set (dist := vec.mag (vec.sub to from)) in *.
  assert (Hlen : forall n : R,
            step_count rnd opts dist p = Fin n ->
            runs (generatePath rnd from to opts) p
              (fun path _ => List.length path = turns_le n)).
  { intros n Hn. eapply runs_weaken; [now apply generatePath_length|].
    cbv beta. intros path _ H. fold dist in H. rewrite Hn in H. exact H. }
  split.
  - intros s Hs Hne.
    pose proof (step_count_given rnd opts dist p s Hs Hne) as Hn.
    split; [apply runs_baseSteps; intros _; exact Hn|].
    eapply runs_weaken; [exact (Hlen s Hn)|].
    cbv beta. intros path _ H. split; [exact H|].
    intros k Hk. rewrite H, Hk. apply turns_le_INR.
  - intros Hs.
    destruct (step_count_formula rnd opts dist p Hs) as [Hpos [Hzero Hneg]].
    split; [|split; [|split]].
    + intros Htw. assert (Hi : 0 < / target_width opts) by now apply Rinv_0_lt_compat.
      unfold Rdiv. nra.
    + intros H. specialize (Hpos H).
      split; [apply runs_baseSteps; intros _; exact Hpos|].
      destruct (fitts_steps_nat dist (target_width opts) (rnd p * (15 - 5) + 5))
        as [k [Hk H15]].
      exists k. split; [exact Hk|]. split; [exact H15|].
      eapply runs_weaken; [exact (Hlen _ Hpos)|].
      cbv beta. intros path _ Hl. rewrite Hl, Hk. apply turns_le_INR.
    + intros H. specialize (Hzero H).
      split; [apply runs_baseSteps; intros _; exact Hzero|].
      eapply runs_weaken; [exact (Hlen _ Hzero)|].
      cbv beta. intros path _ Hl. rewrite Hl.
      replace 15 with (INR 15) by (simpl; lra). apply turns_le_INR.
    + intros H. specialize (Hneg H).
      split; [apply runs_baseSteps; intros _; exact Hneg|].
      apply generatePath_nan_empty; assumption.
Qed.

Lemma generatePath_step_count_witness :
  let rnd := fun _ : nat => 0.3 in
  let from := mkPoint 0 0 in
  let to := mkPoint 100 0 in
  let dist := vec.mag (vec.sub to from) in
  (* steps given: 20 steps, 21 points, whatever the target width *)
  runs (generatePath rnd from to (mkOpts (Some 20) None None (Some (-50)) None None)) 0%nat
    (fun path _ => List.length path = 21%nat) /\
  (* steps: 0 and a target width of 25: the formula, with 25 *)
  runs (baseSteps rnd (mkOpts (Some 0) None None (Some 25) None None) dist) 0%nat
    (fun b _ =>
       b = Fin (Rmax 15 (Math.round (ln (dist / 25 + 1) / ln 2 * 18
                                     + (rnd 0%nat * (15 - 5) + 5))))) /\
  (* nothing given: the formula, with 50 *)
  runs (baseSteps rnd no_opts dist) 0%nat
    (fun b _ =>
       b = Fin (Rmax 15 (Math.round (ln (dist / 50 + 1) / ln 2 * 18
                                     + (rnd 0%nat * (15 - 5) + 5))))) /\
  (* a target width of -100 at distance 100: the logarithm of 0 *)
  runs (generatePath rnd from to (mkOpts None None None (Some (-100)) None None)) 0%nat
    (fun path _ => List.length path = 16%nat) /\
  (* a target width of -50 at distance 100: the logarithm of -1 *)
  runs (generatePath rnd from to (mkOpts None None None (Some (-50)) None None)) 0%nat
    (fun path _ => path = []).
Proof.
  cbv zeta.
  assert (Hf := fair_03).
  assert (Hd : 1 <= vec.mag (vec.sub (mkPoint 100 0) (mkPoint 0 0)))
    by (rewrite mag_100; lra).
  split; [|split; [|split; [|split]]].
  - destruct (generatePath_step_count (fun _ => 0.3) (mkPoint 0 0) (mkPoint 100 0)
                (mkOpts (Some 20) None None (Some (-50)) None None) 0%nat Hf Hd)
      as [H _].
    destruct (H 20 eq_refl) as [_ H20]; [lra|].
    eapply runs_weaken; [exact H20|]. cbv beta. intros path _ [_ Hk].
    apply (Hk 20%nat). simpl. lra.
  - destruct (generatePath_step_count (fun _ => 0.3) (mkPoint 0 0) (mkPoint 100 0)
                (mkOpts (Some 0) None None (Some 25) None None) 0%nat Hf Hd)
      as [_ H].
    destruct (H (or_intror eq_refl)) as [_ [Hpos _]].
    cbn [targetWidth] in Hpos. destruct (Req_dec_T 25 0); [lra|].
    destruct Hpos as [Hb _]; [rewrite mag_100; lra | exact Hb].
  - destruct (generatePath_step_count (fun _ => 0.3) (mkPoint 0 0) (mkPoint 100 0)
                no_opts 0%nat Hf Hd) as [_ H].
    destruct (H (or_introl eq_refl)) as [_ [Hpos _]].
    cbn [targetWidth no_opts] in Hpos.
    destruct Hpos as [Hb _]; [rewrite mag_100; lra | exact Hb].
  - destruct (generatePath_step_count (fun _ => 0.3) (mkPoint 0 0) (mkPoint 100 0)
                (mkOpts None None None (Some (-100)) None None) 0%nat Hf Hd)
      as [_ H].
    destruct (H (or_introl eq_refl)) as [_ [_ [Hzero _]]].
    cbn [targetWidth] in Hzero. destruct (Req_dec_T (-100) 0); [lra|].
    destruct Hzero as [_ Hp]; [rewrite mag_100; lra | exact Hp].
  - destruct (generatePath_step_count (fun _ => 0.3) (mkPoint 0 0) (mkPoint 100 0)
                (mkOpts None None None (Some (-50)) None None) 0%nat Hf Hd)
      as [_ H].
    destruct (H (or_introl eq_refl)) as [_ [_ [_ Hneg]]].
    cbn [targetWidth] in Hneg. destruct (Req_dec_T (-50) 0); [lra|].
    destruct Hneg as [_ Hp]; [rewrite mag_100; lra | exact Hp].
Defined.

(** C5, refuted as stated: a given [steps] of 0 is not used as given.  From
    (0,0) to (100,0) with [steps: 0] and every draw 0.3 the step count is at
    least 15 and the path has at least 16 points, not [0 + 1]. *)
Lemma generatePath_zero_steps_ignored :
  runs (baseSteps (fun _ => 0.3) (with_steps no_opts 0)
          (vec.mag (vec.sub (mkPoint 100 0) (mkPoint 0 0)))) 0%nat
    (fun b _ => exists n : R, b = Fin n /\ 15 <= n /\ n <> 0) /\
  runs (generatePath (fun _ => 0.3) (mkPoint 0 0) (mkPoint 100 0) (with_steps no_opts 0)) 0%nat
    (fun path _ => (16 <= List.length path)%nat /\ List.length path <> (0 + 1)%nat).
Proof.
  destruct (step_count_auto (fun _ => 0.3) (with_steps no_opts 0)
              (vec.mag (vec.sub (mkPoint 100 0) (mkPoint 0 0))) 0%nat)
    as [n [Hn [H15 _]]].
  { intros w Hw. discriminate Hw. }
  { rewrite mag_100. lra. }
  { now right. }
  split.
  - apply runs_baseSteps. intros _. exists n. split; [exact Hn|]. split; lra.
  - eapply runs_weaken.
    + apply generatePath_length; [apply fair_03 | rewrite mag_100; lra].
    + cbv beta. intros path _ Hlen. rewrite Hn in Hlen. cbn [turns_num] in Hlen.
      pose proof (turns_le_ge _ 15 H15) as H16. rewrite <- Hlen in H16.
      simpl in H16. lia.
Qed.

(** ** The controller *)

Ltac totality :=
  repeat match goal with
    | |- total (bind _ _) => apply total_bind; [|intros ?]
    | |- total (ret _) => apply total_ret
    | |- total (liftR _) => apply total_liftR
    | |- total (rand _ _ _) => apply total_rand
    | |- total (Math_random _) => apply total_Math_random
    | |- total (emit _) => apply total_emit
    | |- total (pause _ _ _) => apply total_pause
    | |- total (gauss _ _ _) => apply total_gauss; assumption
    | |- total (generatePath _ _ _ _) => apply total_generatePath; assumption
    | |- total (when _ _) => apply total_when
    | |- total (for_loop _ _ _) => apply total_for_loop; intros ?
    end.

Lemma total_generateOvershootPath rnd from to opts :
  fair rnd -> total (generateOvershootPath rnd from to opts).
Proof.
  intros Hfair. unfold generateOvershootPath. totality.
  destruct (0 <? List.length a1)%nat; totality.
Qed.

Lemma total_get_cursorPos : total get_cursorPos.
Proof. intros w. eexists. exists 0%nat. reflexivity. Qed.

Lemma total_set_cursorPos (q : Point2D) : total (set_cursorPos q).
Proof. intros w. eexists. exists 0%nat. reflexivity. Qed.

Lemma total_ensureVisibleCursor mopts : total (ensureVisibleCursor mopts).
Proof.
  intros w. unfold yields, ensureVisibleCursor.
  destruct (negb (debug_on mopts)); [|destruct (ghostCursor w)];
    eexists; exists 0%nat; intros f _; reflexivity.
Qed.

Lemma total_replay (path : list PathPoint) : total (replay path).
Proof.
  induction path as [|q path IH]; simpl.
  - apply total_ret.
  - totality. exact IH.
Qed.

Lemma total_moveTo rnd mopts x y moveOpts :
  fair rnd -> total (moveTo rnd mopts x y moveOpts).
Proof.
  intros Hfair. unfold moveTo.
  apply total_bind; [apply total_get_cursorPos|]. intros cur.
  apply total_bind.
  { destruct (Rgtb _ _); totality. }
  intros so. apply total_bind.
  { apply total_liftR. destruct so;
      [now apply total_generateOvershootPath | now apply total_generatePath]. }
  intros path. apply total_bind; [apply total_ensureVisibleCursor|]. intros _.
  apply total_bind; [apply total_replay|]. intros _.
  apply total_set_cursorPos.
Qed.

Lemma round_between (lo hi : Z) (x : R) :
  IZR lo <= x <= IZR hi -> IZR lo <= Math.round x <= IZR hi.
Proof.
  intros [H1 H2]. split.
  - rewrite <- (round_IZR lo). now apply round_le.
  - rewrite <- (round_IZR hi). now apply round_le.
Qed.

Lemma round_is_integer (x : R) : is_integer (Math.round x).
Proof. eexists. reflexivity. Qed.

Lemma runs_get_cursorPos (w : World) (Q : Point2D -> World -> Prop) :
  Q (cursorPos w) w -> runs get_cursorPos w Q.
Proof. intros H. eexists _, _. split; [exists 0%nat; reflexivity | exact H]. Qed.

Lemma runs_set_cursorPos (q : Point2D) (w : World) (Q : unit -> World -> Prop) :
  Q tt (mkWorld (rng w) q (ghostCursor w) (events w)) -> runs (set_cursorPos q) w Q.
Proof. intros H. eexists _, _. split; [exists 0%nat; reflexivity | exact H]. Qed.

(** [moveTo] ends with [cursorPos] at the exact target. *)
Lemma runs_moveTo rnd mopts x y moveOpts w :
  fair rnd ->
  runs (moveTo rnd mopts x y moveOpts) w (fun _ w' => cursorPos w' = mkPoint x y).
Proof.
  intros Hfair. unfold moveTo.
  apply runs_bind, runs_get_cursorPos.
  apply runs_bind. eapply runs_weaken.
  { apply runs_total. destruct (Rgtb _ _); totality. }
  intros so w1 _. apply runs_bind. eapply runs_weaken.
  { apply runs_total. apply total_liftR. destruct so;
      [now apply total_generateOvershootPath | now apply total_generatePath]. }
  intros path w2 _. apply runs_bind. eapply runs_weaken.
  { apply runs_total, total_ensureVisibleCursor. }
  intros _ w3 _. apply runs_bind. eapply runs_weaken.
  { apply runs_total, total_replay. }
  intros _ w4 _. apply runs_set_cursorPos. reflexivity.
Qed.

Lemma runs_ensureVisibleCursor mopts (w : World) (Q : unit -> World -> Prop) :
  (forall g, Q tt (mkWorld (rng w) (cursorPos w) g (events w))) ->
  runs (ensureVisibleCursor mopts) w Q.
Proof.
  unfold runs, yields, ensureVisibleCursor.
  destruct w as [r c g e]. simpl. intros H.
  destruct (negb (debug_on mopts)); [|destruct g];
    eexists _, _; (split; [exists 0%nat; intros f _; reflexivity | apply H]).
Qed.

(** A move of less than a pixel: one move event at the target, no draw. *)
Lemma runs_moveTo_near rnd mopts x y moveOpts w (Q : unit -> World -> Prop) :
  vec.mag (vec.sub (mkPoint x y) (cursorPos w)) < 1 ->
  overshootThreshold moveOpts = None ->
  (forall g, Q tt (mkWorld (rng w) (mkPoint x y) g (events w ++ [MouseMove x y]))) ->
  runs (moveTo rnd mopts x y moveOpts) w Q.
Proof.
  intros Hd Hthr HQ. unfold moveTo.
  apply runs_bind, runs_get_cursorPos.
  rewrite Hthr. simpl num_coalesce.
  assert (E : Rgtb (vec.mag (vec.sub (mkPoint x y) (cursorPos w))) 300 = false)
    by (apply Rgtb_false; lra).
  rewrite E. apply runs_bind, runs_ret.
  apply runs_bind, runs_liftR. unfold generatePath.
  apply Rltb_true in Hd. rewrite Hd. apply runs_ret.
  apply runs_bind, runs_ensureVisibleCursor. intros g. simpl.
  apply runs_bind, runs_bind, runs_emit.
  assert (E0 : Rgtb 0 0 = false) by (apply Rgtb_false; lra).
  rewrite E0. simpl. apply runs_bind, runs_ret, runs_ret.
  apply runs_set_cursorPos. simpl. apply HQ.
Qed.

Lemma runs_moveToElement rnd mopts box moveOpts w (Q : Point2D -> World -> Prop) :
  let padX := width box * 0.15 in
  let padY := height box * 0.15 in
  let tx := Math.round (bx box + padX + (rnd (rng w) * (width box - 2 * padX - 0) + 0)) in
  let ty := Math.round (by_ box + padY + (rnd (S (rng w)) * (height box - 2 * padY - 0) + 0)) in
  runs (moveTo rnd mopts tx ty (with_targetWidth moveOpts (width box)))
       (mkWorld (S (S (rng w))) (cursorPos w) (ghostCursor w) (events w))
       (fun _ w' => Q (mkPoint tx ty) w') ->
  runs (moveToElement rnd mopts box moveOpts) w Q.
Proof.
  intros padX padY tx ty H. unfold moveToElement.
  apply runs_bind, runs_liftR, runs_rand. simpl.
  apply runs_bind, runs_liftR, runs_rand. simpl.
  apply runs_bind. eapply runs_weaken; [exact H|].
  intros u w' HQ. apply runs_ret. exact HQ.
Qed.

(** C2, as the code has it.  For a box of positive width and height and
    draws in [0, 1), [moveToElement] returns a whole-pixel point: on each
    axis the rounding of a point of the inner 70% of the box, hence between
    the roundings of its two ends and within half a pixel of it.  For the box
    [{x:100, y:100, width:40, height:20}] the point has x in [106,134] and y
    in [103,117]. *)
Theorem moveToElement_target
  (rnd : nat -> R) (mopts : MouseOpts) (box : BoundingBox) (moveOpts : Opts) (w : World) :
  in_range rnd -> fair rnd -> 0 < width box -> 0 < height box ->
  let padX := width box * 0.15 in
  let padY := height box * 0.15 in
  runs (moveToElement rnd mopts box moveOpts) w
    (fun pt w' =>
       (exists ux uy : R,
          bx box + padX <= ux < bx box + (width box - padX) /\
          by_ box + padY <= uy < by_ box + (height box - padY) /\
          pt = mkPoint (Math.round ux) (Math.round uy)) /\
       Math.round (bx box + padX) <= px pt <= Math.round (bx box + (width box - padX)) /\
       Math.round (by_ box + padY) <= py pt <= Math.round (by_ box + (height box - padY)) /\
       bx box + padX - 0.5 < px pt < bx box + (width box - padX) + 0.5 /\
       by_ box + padY - 0.5 < py pt < by_ box + (height box - padY) + 0.5 /\
       is_integer (px pt) /\ is_integer (py pt) /\
       cursorPos w' = pt /\
       (box = mkBox 100 100 40 20 ->
        106 <= px pt <= 134 /\ 103 <= py pt <= 117)).
Proof.
  intros Hr Hfair Hw Hh padX padY.
  apply runs_moveToElement. eapply runs_weaken; [now apply runs_moveTo|].
  cbv beta. intros u w' Hcur. fold padX. fold padY.
  set (ux := bx box + padX + (rnd (rng w) * (width box - 2 * padX - 0) + 0)).
  set (uy := by_ box + padY + (rnd (S (rng w)) * (height box - 2 * padY - 0) + 0)).
  pose proof (Hr (rng w)) as H1. pose proof (Hr (S (rng w))) as H2.
  assert (Hux : bx box + padX <= ux < bx box + (width box - padX)).
  { unfold ux, padX in *. split; nra. }
  assert (Huy : by_ box + padY <= uy < by_ box + (height box - padY)).
  { unfold uy, padY in *. split; nra. }
  pose proof (round_bounds ux) as Bx. pose proof (round_bounds uy) as By.
  simpl px. simpl py.
  assert (Hbox : box = mkBox 100 100 40 20 ->
                 106 <= Math.round ux <= 134 /\ 103 <= Math.round uy <= 117).
  { intros E. unfold padX in Hux. unfold padY in Huy.
    rewrite E in Hux, Huy. simpl in Hux, Huy.
    split; [apply (round_between 106 134) | apply (round_between 103 117)]; lra. }
  split; [exists ux, uy; auto|].
  split; [split; apply round_le; lra|].
  split; [split; apply round_le; lra|].
  split; [lra|]. split; [lra|].
  split; [apply round_is_integer|]. split; [apply round_is_integer|].
  split; [exact Hcur | exact Hbox].
Qed.

Lemma moveToElement_target_witness :
  runs (moveToElement (fun _ => 0.3) mopts0 (mkBox 100 100 40 20) no_opts)
       (world0 (mkPoint 0 0))
    (fun pt w' => 106 <= px pt <= 134 /\ 103 <= py pt <= 117).
Proof.
  eapply runs_weaken.
  - apply (moveToElement_target (fun _ => 0.3) mopts0 (mkBox 100 100 40 20) no_opts
             (world0 (mkPoint 0 0))).
    + intros i. lra.
    + apply fair_03.
    + simpl. lra.
    + simpl. lra.
  - cbv beta. intros pt w' H. decompose [and] H. auto.
Defined.

Lemma mag_self (a : Point2D) : vec.mag (vec.sub a a) = 0.
Proof.
  unfold vec.mag, vec.sub, Math.sqrt. simpl.
  replace ((px a - px a) * (px a - px a) + (py a - py a) * (py a - py a)) with 0 by ring.
  apply sqrt_0.
Qed.

(** C2, refuted as stated: the point returned can lie outside
    [pad, size - pad] and on the edge of the box.  For the box
    [{x:0, y:0, width:1, height:1}] with every draw 0.25 the point returned
    is (0,0), the corner of the box, while [pad = 0.15]. *)
Lemma moveToElement_off_inner_box :
  runs (moveToElement (fun _ => 0.25) mopts0 (mkBox 0 0 1 1) no_opts) (world0 (mkPoint 0 0))
    (fun pt _ =>
       pt = mkPoint 0 0 /\
       ~ (1 * 0.15 <= px pt - 0 <= 1 - 1 * 0.15) /\
       ~ (1 * 0.15 <= py pt - 0 <= 1 - 1 * 0.15)).
Proof.
  apply runs_moveToElement. simpl.
  assert (E : forall x, x = 0.325 -> Math.round x = 0).
  { intros x Hx. apply (round_eq x 0). lra. }
  rewrite (E (0 + 1 * 0.15 + (0.25 * (1 - 2 * (1 * 0.15) - 0) + 0))) by lra.
  apply runs_moveTo_near.
  - simpl. rewrite (mag_self (mkPoint 0 0)). lra.
  - reflexivity.
  - intros g. simpl. repeat split; lra.
Qed.

(** The point returned can also be the exact centre of the box: for
    [{x:100, y:100, width:40, height:20}] with every draw 0.49 it is
    (120,110). *)
Lemma moveToElement_center :
  runs (moveToElement (fun _ => 0.49) mopts0 (mkBox 100 100 40 20) no_opts)
       (world0 (mkPoint 120 110))
    (fun pt _ => pt = mkPoint (100 + 40 / 2) (100 + 20 / 2)).
Proof.
  apply runs_moveToElement. simpl.
  rewrite (round_eq (100 + 40 * 0.15 + (0.49 * (40 - 2 * (40 * 0.15) - 0) + 0)) 120) by lra.
  rewrite (round_eq (100 + 20 * 0.15 + (0.49 * (20 - 2 * (20 * 0.15) - 0) + 0)) 110) by lra.
  apply runs_moveTo_near.
  - simpl. rewrite (mag_self (mkPoint 120 110)). lra.
  - reflexivity.
  - intros g. f_equal; lra.
Qed.

(** ** Frame: what leaves [cursorPos] alone *)

Lemma keeps_ret {A} (a : A) : keeps_cursor (ret a).
Proof. intros fuel w a' w' H. injection H as _ <-. reflexivity. Qed.

Lemma keeps_bind {A B} (m : Ctl A) (k : A -> Ctl B) :
  keeps_cursor m -> (forall a, keeps_cursor (k a)) -> keeps_cursor (bind m k).
Proof.
  intros Hm Hk fuel w b w' H. apply bind_Some in H.
  destruct H as [a [w1 [H1 H2]]].
  rewrite (Hk a fuel w1 b w' H2). exact (Hm fuel w a w1 H1).
Qed.

Lemma keeps_liftR {A} (m : Rand A) : keeps_cursor (liftR m).
Proof.
  intros fuel w a w' H. unfold liftR in H.
  destruct (m fuel (rng w)) as [[a' p]|]; [|discriminate].
  injection H as _ <-. reflexivity.
Qed.

Lemma keeps_emit (e : Event) : keeps_cursor (emit e).
Proof. intros fuel w a w' H. injection H as _ <-. reflexivity. Qed.

Lemma keeps_when (b : bool) (m : Ctl unit) : keeps_cursor m -> keeps_cursor (when b m).
Proof. intros H. destruct b; simpl; [exact H | apply keeps_ret]. Qed.

Lemma keeps_for_loop (body : nat -> Ctl unit) :
  (forall i, keeps_cursor (body i)) -> forall n i, keeps_cursor (for_loop n i body).
Proof.
  intros Hb n. induction n as [|n IH]; intros i; simpl.
  - apply keeps_ret.
  - apply keeps_bind; auto.
Qed.

Lemma keeps_pause rnd lo hi : keeps_cursor (pause rnd lo hi).
Proof.
  unfold pause. apply keeps_bind; [apply keeps_liftR|]. intros r. apply keeps_emit.
Qed.

Lemma keeps_click rnd clickOpts : keeps_cursor (click rnd clickOpts).
Proof.
  unfold click.
  repeat (apply keeps_bind; [first [apply keeps_pause | apply keeps_emit]|intros ?]).
  apply keeps_pause.
Qed.

Lemma keeps_humanScroll rnd deltaY : keeps_cursor (humanScroll rnd deltaY).
Proof.
  unfold humanScroll.
  apply keeps_bind; [apply keeps_liftR|]. intros r.
  apply keeps_bind; [|intros ?; apply keeps_pause].
  apply keeps_for_loop. intros i. unfold scrollStep.
  apply keeps_bind; [apply keeps_liftR|]. intros g.
  apply keeps_bind; [apply keeps_emit|]. intros ?. apply keeps_pause.
Qed.

Lemma total_click rnd clickOpts : total (click rnd clickOpts).
Proof. unfold click. totality. Qed.

Lemma total_humanScroll rnd deltaY : fair rnd -> total (humanScroll rnd deltaY).
Proof. intros Hfair. unfold humanScroll, scrollStep. totality. Qed.

Lemma click_any_fuel rnd clickOpts fuel w :
  exists w', click rnd clickOpts fuel w = Some (tt, w').
Proof.
  unfold click, pause, bind, liftR, rand, Math_random, emit, ret. simpl.
  eexists. reflexivity.
Qed.

(** C10. [click] and [humanScroll] never modify the controller's cursor
    position: [click] always returns, and whenever either returns the
    [position] accessor gives the same pair as before the call;
    [humanScroll] does return when the stream of draws is fair.  The
    accessor itself changes nothing, and the setter sets the pair. *)
Theorem click_humanScroll_keep_position
  (rnd : nat -> R) (clickOpts : Opts) (deltaY : R) (fuel : nat) (w : World) :
  (exists w', click rnd clickOpts fuel w = Some (tt, w') /\
              position fuel w' = Some (cursorPos w, w')) /\
  (forall w', humanScroll rnd deltaY fuel w = Some (tt, w') ->
              position fuel w' = Some (cursorPos w, w')) /\
  (fair rnd ->
   runs (humanScroll rnd deltaY) w
     (fun _ w' => forall f, position f w' = Some (cursorPos w, w'))) /\
  position fuel w = Some (cursorPos w, w) /\
  (forall q, exists w', set_position q fuel w = Some (tt, w') /\ cursorPos w' = q).
Proof.
  assert (Hpos : forall f v, position f v = Some (cursorPos v, v)).
  { intros f v. unfold position, bind, get_cursorPos, ret.
    destruct (cursorPos v); reflexivity. }
  split; [|split; [|split; [|split]]].
  - destruct (click_any_fuel rnd clickOpts fuel w) as [w' Hc].
    exists w'. split; [exact Hc|].
    rewrite Hpos. now rewrite (keeps_click rnd clickOpts fuel w tt w' Hc).
  - intros w' Hs. rewrite Hpos.
    now rewrite (keeps_humanScroll rnd deltaY fuel w tt w' Hs).
  - intros Hfair. destruct (total_humanScroll rnd deltaY Hfair w) as [[[] w'] Hy].
    exists tt, w'. split; [exact Hy|]. intros f. rewrite Hpos.
    destruct Hy as [f0 Hy]. specialize (Hy f0 (le_n f0)).
    now rewrite (keeps_humanScroll rnd deltaY f0 w tt w' Hy).
  - apply Hpos.
  - intros q. eexists. split; [reflexivity|]. destruct q; reflexivity.
Qed.

(** ** Scrolling *)

Lemma runs_scrollStep rnd perStep w (Q : unit -> World -> Prop) :
  fair rnd ->
  (forall x q,
     Q tt (mkWorld (S q) (cursorPos w) (ghostCursor w)
             (events w ++ [MouseWheel 0 (Math.round x);
                           WaitForTimeout (Math.round (rnd q * (150 - 60) + 60))]))) ->
  runs (scrollStep rnd perStep) w Q.
Proof.
  intros Hfair H. unfold scrollStep.
  apply runs_bind, runs_liftR, runs_gauss; auto. intros g q.
  apply runs_bind, runs_emit. apply runs_pause. simpl.
  rewrite <- app_assoc. apply H.
Qed.

Lemma runs_scroll_loop rnd perStep :
  fair rnd ->
  forall n i w,
    runs (for_loop n i (fun _ => scrollStep rnd perStep)) w
      (fun _ w' =>
         exists turns,
           List.length turns = n /\
           events w' = events w ++ scroll_events turns /\
           Forall (scroll_turn rnd) turns).
Proof.
  intros Hfair n. induction n as [|n IH]; intros i w; simpl.
  - apply runs_ret. exists []. simpl. rewrite app_nil_r. repeat split. constructor.
  - apply runs_bind, runs_scrollStep; auto. intros x q.
    eapply runs_weaken; [apply IH|].
    cbv beta. intros u w' [turns [Hlen [Hev Hall]]].
    exists ((Math.round x, Math.round (rnd q * (150 - 60) + 60)) :: turns).
    split; [simpl; congruence|]. split.
    + rewrite Hev. simpl. rewrite <- app_assoc. reflexivity.
    + constructor; [|exact Hall]. split; eexists; reflexivity.
Qed.

Lemma wheels_scroll_events (turns : list (R * R)) (tl : list Event) :
  wheels (scroll_events turns ++ tl) = (List.length turns + wheels tl)%nat.
Proof. induction turns as [|t turns IH]; simpl; [reflexivity | now rewrite IH]. Qed.

Lemma waits_scroll_events (turns : list (R * R)) (tl : list Event) :
  waits (scroll_events turns ++ tl) = map snd turns ++ waits tl.
Proof. induction turns as [|t turns IH]; simpl; [reflexivity | now rewrite IH]. Qed.

(** C6, as the code has it.  [humanScroll] issues [n = round(uniform(3,6))]
    scroll-by events, [n] between 3 and 6, and suspends [uniform(60,150)]
    rounded after every one of them, the last included ([n] such
    suspensions); it then suspends [uniform(200,500)] rounded once more. *)
Theorem humanScroll_events (rnd : nat -> R) (deltaY : R) (w : World) :
  in_range rnd -> fair rnd ->
  runs (humanScroll rnd deltaY) w
    (fun _ w' =>
       exists (turns : list (R * R)) (wf : R),
         let n := Math.roundZ (rnd (rng w) * (6 - 3) + 3) in
         (3 <= n <= 6)%Z /\
         List.length turns = Z.to_nat n /\
         events w' = events w ++ scroll_events turns ++ [WaitForTimeout wf] /\
         Forall (fun t => is_integer (fst t) /\ 60 <= snd t <= 150 /\ is_integer (snd t)) turns /\
         200 <= wf <= 500 /\ is_integer wf /\
         wheels (scroll_events turns ++ [WaitForTimeout wf]) = Z.to_nat n /\
         waits (scroll_events turns ++ [WaitForTimeout wf]) = map snd turns ++ [wf]).
Proof.
  intros Hr Hfair. unfold humanScroll.
  apply runs_bind, runs_liftR, runs_rand.
  apply runs_bind. eapply runs_weaken; [now apply runs_scroll_loop|].
  cbv beta. intros u w1 [turns [Hlen [Hev Hall]]].
  apply runs_pause. simpl in Hev |- *.
  exists turns. eexists. cbv zeta.
  pose proof (Hr (rng w)) as H0.
  split.
  { assert (E3 : Math.roundZ 3 = 3%Z) by (apply roundZ_eq; lra).
    assert (E6 : Math.roundZ 6 = 6%Z) by (apply roundZ_eq; lra).
    pose proof (roundZ_le 3 (rnd (rng w) * (6 - 3) + 3)) as L3.
    pose proof (roundZ_le (rnd (rng w) * (6 - 3) + 3) 6) as L6.
    rewrite E3 in L3. rewrite E6 in L6. split; [apply L3 | apply L6]; lra. }
  split; [exact Hlen|].
  split; [rewrite Hev, <- app_assoc; reflexivity|].
  split.
  { eapply Forall_impl; [|exact Hall].
    intros t [[x Hx] [q Hq]]. rewrite Hx, Hq.
    pose proof (Hr q) as Hq'.
    repeat split; try apply round_is_integer;
      apply (round_between 60 150); lra. }
  pose proof (Hr (rng w1)) as H1.
  split; [apply (round_between 200 500); lra|].
  split; [apply round_is_integer|].
  rewrite wheels_scroll_events, waits_scroll_events. simpl.
  split; [lia | reflexivity].
Qed.

Lemma humanScroll_events_witness :
  runs (humanScroll (fun _ => 0.3) 100) (world0 (mkPoint 0 0))
    (fun _ w' => (3 <= wheels (events w') <= 6)%nat).
Proof.
  eapply runs_weaken.
  - apply (humanScroll_events (fun _ => 0.3) 100 (world0 (mkPoint 0 0))).
    + intros i. lra.
    + apply fair_03.
  - cbv beta zeta. intros u w' [turns [wf [Hn [_ [Hev [_ [_ [_ [Hwh _]]]]]]]]].
    simpl in Hev. rewrite Hev, Hwh. lia.
Defined.

(** C6, refuted as stated: the suspensions of [uniform(60,150)] are not
    [n - 1].  With every draw 0.3 and [deltaY = 100] there are [n = 4]
    scroll-by events and four suspensions of 87 ms, one after each of them,
    before the closing suspension of 290 ms. *)
Lemma humanScroll_waits_after_every_step :
  runs (humanScroll (fun _ => 0.3) 100) (world0 (mkPoint 0 0))
    (fun _ w' =>
       wheels (events w') = 4%nat /\
       waits (events w') = [87; 87; 87; 87; 290] /\
       exists a1 a2 a3 a4,
         events w' = [MouseWheel 0 a1; WaitForTimeout 87;
                      MouseWheel 0 a2; WaitForTimeout 87;
                      MouseWheel 0 a3; WaitForTimeout 87;
                      MouseWheel 0 a4; WaitForTimeout 87;
                      WaitForTimeout 290]).
Proof.
  unfold humanScroll.
  apply runs_bind, runs_liftR, runs_rand.
  rewrite (roundZ_eq (0.3 * (6 - 3) + 3) 4) by lra.
  change (Z.to_nat 4) with 4%nat.
  apply runs_bind. eapply runs_weaken; [apply runs_scroll_loop, fair_03|].
  cbv beta. intros u w1 [turns [Hlen [Hev Hall]]].
  apply runs_pause. simpl in Hev |- *.
  assert (E87 : forall q : nat, Math.round (0.3 * (150 - 60) + 60) = 87).
  { intros _. apply (round_eq _ 87). lra. }
  assert (E290 : Math.round (0.3 * (500 - 200) + 200) = 290).
  { apply (round_eq _ 290). lra. }
  rewrite E290, Hev.
  destruct turns as [|[a1 d1] [|[a2 d2] [|[a3 d3] [|[a4 d4] [|t5 turns]]]]];
    try discriminate Hlen.
  inversion Hall as [|? ? [_ [q1 H1]] Hall1]; subst.
  inversion Hall1 as [|? ? [_ [q2 H2]] Hall2]; subst.
  inversion Hall2 as [|? ? [_ [q3 H3]] Hall3]; subst.
  inversion Hall3 as [|? ? [_ [q4 H4]] Hall4]; subst.
  simpl in H1, H2, H3, H4.
  rewrite (E87 q1) in H1. rewrite (E87 q2) in H2.
  rewrite (E87 q3) in H3. rewrite (E87 q4) in H4. subst.
  simpl. repeat split. exists a1, a2, a3, a4. reflexivity.
Qed.

(** ** Typing *)

Lemma get_lt (s : string) : forall j, (j < String.length s)%nat -> exists c, String.get j s = Some c.
Proof.
  induction s as [|a s IH]; intros j Hj; simpl in Hj; [lia|].
  destruct j as [|j]; simpl; [now exists a|]. apply IH. lia.
Qed.

Lemma punct_test_first (text : string) : punct_test text 0 = true.
Proof. reflexivity. Qed.

Lemma punct_test_prev (text : string) (j : nat) (c : ascii) :
  String.get j text = Some c ->
  (punct_test text (S j) = true <-> In c punct_chars).
Proof.
  intros Hget. unfold punct_test.
  replace (Z.of_nat (S j) - 1)%Z with (Z.of_nat j) by lia.
  unfold str_at. destruct (Z.of_nat j <? 0)%Z eqn:E; [apply Z.ltb_lt in E; lia|].
  rewrite Nat2Z.id, Hget. unfold str_or.
  destruct (string_dec (String c EmptyString) EmptyString) as [D|_]; [discriminate D|].
  unfold punctuation, punct_chars. cbn [includes String.prefix In].
  repeat match goal with
         | |- context [ascii_dec ?a ?b] => destruct (ascii_dec a b)
         end; subst; simpl; split; intros H; auto; try discriminate H;
    intuition congruence.
Qed.

(** The test guarding the punctuation pause, at the indices of the loop:
    it holds at the first character, and after it exactly when the
    previous character is one of the seven. *)
Lemma punct_test_spec (text : string) (i : nat) :
  (i < String.length text)%nat ->
  (punct_test text i = true <->
   i = 0%nat \/ exists c, String.get (i - 1) text = Some c /\ In c punct_chars).
Proof.
  intros Hi. destruct i as [|j].
  - split; [now left | intros _; apply punct_test_first].
  - replace (S j - 1)%nat with j by lia.
    destruct (get_lt text j) as [c Hc]; [lia|].
    rewrite (punct_test_prev text j c Hc). split.
    + intros H. right. now exists c.
    + intros [H|[c' [Hc' H]]]; [discriminate|]. congruence.
Qed.

(** C3. The punctuation pause is not withheld before the first character:
    at [i = 0] the test [',. ;:!?'.includes(text[i - 1] || '')] asks whether
    the empty string occurs in the set, which it does.  Typing ["a"] with
    every draw 0.3 suspends 116 ms before the key press. *)
Theorem humanType_pause_before_first_char :
  (forall text : string, punct_test text 0 = true) /\
  runs (humanType (fun _ => 0.3) "a" (mkTypingConfig None None)) (world0 (mkPoint 0 0))
    (fun _ w' =>
       exists d : R,
         events w' = [WaitForTimeout 116; KeyPress "a"; WaitForTimeout d]).
Proof.
  split; [exact punct_test_first|].
  unfold humanType. cbn [String.length for_loop].
  apply runs_bind. unfold typeStep.
  apply runs_bind, runs_liftR, runs_Math_random.
  assert (E : Rltb 0.3 0.08 = false) by (apply Rltb_false; lra).
  rewrite E. cbn [andb when].
  apply runs_bind, runs_ret.
  rewrite punct_test_first. cbn [when].
  apply runs_bind, runs_pause.
  apply runs_bind, runs_emit.
  apply runs_bind, runs_liftR, runs_gauss; [apply fair_03|]. intros g q.
  apply runs_emit, runs_ret.
  cbn [events world0 app].
  rewrite (round_eq (0.3 * (200 - 80) + 80) 116) by lra.
  eexists. reflexivity.
Qed.

(** * Further properties of the engine *)

(** ** Vector math *)

Lemma mag_nonzero (a : Point2D) : a <> mkPoint 0 0 -> 0 < vec.mag a.
Proof.
  intros Hne. destruct (mag_nonneg a) as [H|H]; [exact H|].
  exfalso. apply Hne. symmetry in H. now apply mag_eq_0.
Qed.

(** X1. A vector other than zero is normalised to magnitude 1, and
    [vec.setMag] gives it the magnitude asked for, in absolute value. *)
Theorem vec_unit_norm (a : Point2D) (m : R) :
  a <> mkPoint 0 0 ->
  vec.mag (vec.unit a) = 1 /\ vec.mag (vec.setMag a m) = Rabs m.
Proof.
  intros Hne. pose proof (mag_nonzero a Hne) as Hpos.
  pose proof (mag_sqr a) as Hsq.
  assert (Hu : px (vec.unit a) * px (vec.unit a) + py (vec.unit a) * py (vec.unit a) = 1).
  { unfold vec.unit. destruct (Req_dec_T (vec.mag a) 0) as [E|E]; [lra|]. simpl.
    transitivity ((px a * px a + py a * py a) / (vec.mag a * vec.mag a)).
    - field. exact E.
    - rewrite <- Hsq. field. exact E. }
  split.
  - unfold vec.mag at 1. unfold Math.sqrt. rewrite Hu. apply sqrt_1.
  - unfold vec.setMag, vec.mag, vec.mult, Math.sqrt. simpl.
    replace (px (vec.unit a) * m * (px (vec.unit a) * m) +
             py (vec.unit a) * m * (py (vec.unit a) * m))
      with ((px (vec.unit a) * px (vec.unit a) + py (vec.unit a) * py (vec.unit a)) * Rsqr m)
      by (unfold Rsqr; ring).
    rewrite Hu, Rmult_1_l. apply sqrt_Rsqr_abs.
Qed.

Lemma vec_unit_norm_witness :
  vec.mag (vec.unit (mkPoint 3 4)) = 1 /\ vec.mag (vec.setMag (mkPoint 3 4) 2) = Rabs 2.
Proof.
  apply (vec_unit_norm (mkPoint 3 4) 2).
  intros H. injection H. lra.
Defined.

(** [vec.perp] turns a vector a quarter turn: the result is orthogonal
    to the vector, has its magnitude, and turned once more is the vector
    negated. *)
Theorem vec_perp_quarter_turn (a : Point2D) :
  dot a (vec.perp a) = 0 /\
  vec.mag (vec.perp a) = vec.mag a /\
  vec.perp (vec.perp a) = vec.mult a (-1).
Proof.
  split; [|split].
  - unfold dot, vec.perp. simpl. ring.
  - apply mag_perp.
  - unfold vec.perp, vec.mult. simpl. f_equal; ring.
Qed.

(** X2. [vec.lerp] runs from its first point at [t = 0] to its second at
    [t = 1], and for [t] in [0, 1] each coordinate stays between the
    coordinates of the two. *)
Theorem vec_lerp_between (a b : Point2D) (t : R) :
  0 <= t <= 1 ->
  vec.lerp a b 0 = a /\ vec.lerp a b 1 = b /\
  Rmin (px a) (px b) <= px (vec.lerp a b t) <= Rmax (px a) (px b) /\
  Rmin (py a) (py b) <= py (vec.lerp a b t) <= Rmax (py a) (py b).
Proof.
  intros Ht. destruct a as [ax ay], b as [bx0 by0]. unfold vec.lerp. simpl.
  split; [f_equal; ring|]. split; [f_equal; ring|].
  unfold Rmin, Rmax.
  split; [destruct (Rle_dec ax bx0) | destruct (Rle_dec ay by0)]; split; nra.
Qed.

Lemma vec_lerp_between_witness :
  vec.lerp (mkPoint 0 0) (mkPoint 10 4) 0 = mkPoint 0 0 /\
  vec.lerp (mkPoint 0 0) (mkPoint 10 4) 1 = mkPoint 10 4 /\
  Rmin 0 10 <= px (vec.lerp (mkPoint 0 0) (mkPoint 10 4) 0.5) <= Rmax 0 10 /\
  Rmin 0 4 <= py (vec.lerp (mkPoint 0 0) (mkPoint 10 4) 0.5) <= Rmax 0 4.
Proof.
  apply (vec_lerp_between (mkPoint 0 0) (mkPoint 10 4) 0.5). lra.
Defined.

(** ** The Bezier curve *)

Lemma bernstein_between (w0 w1 w2 w3 x0 x1 x2 x3 lo hi : R) :
  0 <= w0 -> 0 <= w1 -> 0 <= w2 -> 0 <= w3 -> w0 + w1 + w2 + w3 = 1 ->
  lo <= x0 <= hi -> lo <= x1 <= hi -> lo <= x2 <= hi -> lo <= x3 <= hi ->
  lo <= w0 * x0 + w1 * x1 + w2 * x2 + w3 * x3 <= hi.
Proof.
  intros H0 H1 H2 H3 Hs B0 B1 B2 B3.
  assert (L0 : w0 * lo <= w0 * x0 <= w0 * hi) by (split; apply Rmult_le_compat_l; lra).
  assert (L1 : w1 * lo <= w1 * x1 <= w1 * hi) by (split; apply Rmult_le_compat_l; lra).
  assert (L2 : w2 * lo <= w2 * x2 <= w2 * hi) by (split; apply Rmult_le_compat_l; lra).
  assert (L3 : w3 * lo <= w3 * x3 <= w3 * hi) by (split; apply Rmult_le_compat_l; lra).
  assert (El : (w0 + w1 + w2 + w3) * lo = lo) by (rewrite Hs; ring).
  assert (Eh : (w0 + w1 + w2 + w3) * hi = hi) by (rewrite Hs; ring).
  split; nra.
Qed.

(** X3. [cubicBezier] starts at [p0] and ends at [p3], and for [t] in
    [0, 1] the point stays in every axis-parallel box that holds the four
    control points. *)
Theorem cubicBezier_in_hull (p0 p1 p2 p3 : Point2D) (t xlo xhi ylo yhi : R) :
  0 <= t <= 1 ->
  (forall q, In q [p0; p1; p2; p3] -> xlo <= px q <= xhi /\ ylo <= py q <= yhi) ->
  cubicBezier p0 p1 p2 p3 0 = p0 /\
  cubicBezier p0 p1 p2 p3 1 = p3 /\
  xlo <= px (cubicBezier p0 p1 p2 p3 t) <= xhi /\
  ylo <= py (cubicBezier p0 p1 p2 p3 t) <= yhi.
Proof.
  intros Ht Hbox.
  destruct (Hbox p0) as [X0 Y0]; [simpl; auto|].
  destruct (Hbox p1) as [X1 Y1]; [simpl; auto|].
  destruct (Hbox p2) as [X2 Y2]; [simpl; auto|].
  destruct (Hbox p3) as [X3 Y3]; [simpl; auto|].
  unfold cubicBezier. cbv zeta.
  split; [destruct p0; simpl; f_equal; ring|].
  split; [destruct p3; simpl; f_equal; ring|].
  simpl px. simpl py.
  assert (Hu : 0 <= 1 - t) by lra.
  assert (W0 : 0 <= (1 - t) * (1 - t) * (1 - t)) by (repeat apply Rmult_le_pos; lra).
  assert (W1 : 0 <= 3 * (1 - t) * (1 - t) * t) by (repeat apply Rmult_le_pos; lra).
  assert (W2 : 0 <= 3 * (1 - t) * t * t) by (repeat apply Rmult_le_pos; lra).
  assert (W3 : 0 <= t * t * t) by (repeat apply Rmult_le_pos; lra).
  assert (Ws : (1 - t) * (1 - t) * (1 - t) + 3 * (1 - t) * (1 - t) * t
               + 3 * (1 - t) * t * t + t * t * t = 1) by ring.
  split; apply bernstein_between; assumption.
Qed.

Lemma cubicBezier_in_hull_witness :
  cubicBezier (mkPoint 0 0) (mkPoint 1 2) (mkPoint 2 2) (mkPoint 3 0) 0 = mkPoint 0 0 /\
  cubicBezier (mkPoint 0 0) (mkPoint 1 2) (mkPoint 2 2) (mkPoint 3 0) 1 = mkPoint 3 0 /\
  0 <= px (cubicBezier (mkPoint 0 0) (mkPoint 1 2) (mkPoint 2 2) (mkPoint 3 0) 0.5) <= 3 /\
  0 <= py (cubicBezier (mkPoint 0 0) (mkPoint 1 2) (mkPoint 2 2) (mkPoint 3 0) 0.5) <= 2.
Proof.
  apply (cubicBezier_in_hull (mkPoint 0 0) (mkPoint 1 2) (mkPoint 2 2) (mkPoint 3 0)
           0.5 0 3 0 2).
  - lra.
  - intros q [H|[H|[H|[H|[]]]]]; subst q; simpl; lra.
Defined.

(** ** Random helpers *)

(** X4. [rand(min, max)] takes one draw and, for a draw in [0, 1), gives a
    number between its two arguments, whichever is the larger; when
    [min < max] the result is in [min, max). *)
Theorem rand_between (rnd : nat -> R) (lo hi : R) (fuel p : nat) :
  in_range rnd ->
  exists r : R,
    rand rnd lo hi fuel p = Some (r, S p) /\
    Rmin lo hi <= r <= Rmax lo hi /\
    (lo < hi -> lo <= r < hi).
Proof.
  intros Hr. exists (rnd p * (hi - lo) + lo). pose proof (Hr p) as Hp.
  split; [reflexivity|]. split.
  - unfold Rmin, Rmax. destruct (Rle_dec lo hi); split; nra.
  - intros Hlt. split; nra.
Qed.

Lemma rand_between_witness :
  exists r : R,
    rand (fun _ => 0.3) 4 12 0%nat 0%nat = Some (r, 1%nat) /\
    Rmin 4 12 <= r <= Rmax 4 12 /\
    (4 < 12 -> 4 <= r < 12).
Proof.
  apply (rand_between (fun _ => 0.3) 4 12 0%nat 0%nat).
  intros i. lra.
Defined.

(** ** Control points *)

Lemma cp_at_proj rnd start end_ spread side q :
  start <> end_ ->
  proj start (vec.sub end_ start) (vec.mag (vec.sub end_ start))
       (cp_at rnd start end_ spread side q)
  = rnd q * (0.8 - 0.2) + 0.2.
Proof.
  intros Hne. pose proof (mag_sub_pos _ _ Hne) as Hpos.
  pose proof (mag_sqr (vec.sub end_ start)) as Hsq.
  unfold cp_at, vec.setMag, vec.unit. rewrite mag_perp.
  destruct (Req_dec_T (vec.mag (vec.sub end_ start)) 0) as [E|E]; [lra|].
  set (k := clamped_spread start end_ spread * (rnd (S q) * (1.0 - 0.3) + 0.3) * side).
  set (t := rnd q * (0.8 - 0.2) + 0.2).
  set (d := vec.mag (vec.sub end_ start)) in *.
  destruct start as [sx sy], end_ as [ex ey].
  unfold proj, vec.add, vec.lerp, vec.mult, vec.perp, vec.sub in *. simpl in *.
  transitivity (t * ((ex - sx) * (ex - sx) + (ey - sy) * (ey - sy)) / (d * d)).
  - field. exact E.
  - rewrite <- Hsq. field. exact E.
Qed.

Lemma cp_at_offset rnd start end_ spread p q :
  in_range rnd -> start <> end_ ->
  let cs := clamped_spread start end_ spread in
  let dist := vec.mag (vec.sub end_ start) in
  0.3 * cs * dist <= Rabs (side_of start end_ (cp_at rnd start end_ spread (side_at rnd p) q))
    < cs * dist.
Proof.
  intros Hr Hne cs dist. unfold cp_at. rewrite (control_point_side _ _ _ _ Hne).
  fold cs. fold dist.
  pose proof (mag_sub_pos _ _ Hne) as Hd. fold dist in Hd.
  pose proof (clampedSpread_pos start end_ spread) as Hc. fold cs in Hc.
  pose proof (Hr (S q)) as Hq.
  set (r := rnd (S q) * (1.0 - 0.3) + 0.3).
  assert (Hrr : 0.3 <= r < 1) by (unfold r; lra).
  assert (Hk : 0 < cs * r * dist) by (repeat apply Rmult_lt_0_compat; lra).
  unfold side_at. destruct (Rgtb (rnd p) 0.5).
  - rewrite Rabs_right by nra. split; nra.
  - rewrite Rabs_left by nra. split; nra.
Qed.

(** X5. Both control points of [bezierControlPoints] lie over the middle
    of the segment and off the line: for [start <> end] and draws in
    [0, 1), each has its projection (as the source computes it) in
    [0.2, 0.8), and its cross product with the segment, in absolute value,
    is between 0.3 and 1 times [clampedSpread * dist], where
    [clampedSpread >= 2]. *)
Theorem bezierControlPoints_placement
  (rnd : nat -> R) (start end_ : Point2D) (spread : option R) (fuel p : nat) :
  in_range rnd -> start <> end_ ->
  let dir := vec.sub end_ start in
  let dist := vec.mag dir in
  let cs := clamped_spread start end_ spread in
  exists cps : list Point2D,
    bezierControlPoints rnd start end_ spread fuel p = Some (cps, (p + 5)%nat) /\
    List.length cps = 2%nat /\
    2 <= cs /\
    forall cp, In cp cps ->
      0.2 <= proj start dir dist cp < 0.8 /\
      0.3 * cs * dist <= Rabs (side_of start end_ cp) < cs * dist.
Proof.
  intros Hr Hne dir dist cs. rewrite bezierControlPoints_eq.
  replace (S (S (S (S (S p))))) with (p + 5)%nat by lia.
  assert (Hcp : forall q,
            0.2 <= proj start dir dist (cp_at rnd start end_ spread (side_at rnd p) q) < 0.8 /\
            0.3 * cs * dist
              <= Rabs (side_of start end_ (cp_at rnd start end_ spread (side_at rnd p) q))
              < cs * dist).
  { intros q. split.
    - unfold dir, dist. rewrite cp_at_proj by exact Hne. pose proof (Hr q). lra.
    - apply cp_at_offset; assumption. }
  eexists. split; [reflexivity|].
  split; [destruct (Rleb _ _); reflexivity|].
  split; [apply clampedSpread_pos|].
  intros cp Hin.
  destruct (Rleb _ _); simpl in Hin;
    destruct Hin as [E|[E|[]]]; subst cp; apply Hcp.
Qed.

Lemma bezierControlPoints_placement_witness :
  exists cps : list Point2D,
    bezierControlPoints (fun _ => 0.25) (mkPoint 0 0) (mkPoint 1 0) None 0%nat 0%nat
      = Some (cps, (0 + 5)%nat) /\
    List.length cps = 2%nat /\
    2 <= clamped_spread (mkPoint 0 0) (mkPoint 1 0) None /\
    forall cp, In cp cps ->
      0.2 <= proj (mkPoint 0 0) (vec.sub (mkPoint 1 0) (mkPoint 0 0))
               (vec.mag (vec.sub (mkPoint 1 0) (mkPoint 0 0))) cp < 0.8 /\
      0.3 * clamped_spread (mkPoint 0 0) (mkPoint 1 0) None
        * vec.mag (vec.sub (mkPoint 1 0) (mkPoint 0 0))
        <= Rabs (side_of (mkPoint 0 0) (mkPoint 1 0) cp)
        < clamped_spread (mkPoint 0 0) (mkPoint 1 0) None
          * vec.mag (vec.sub (mkPoint 1 0) (mkPoint 0 0)).
Proof.
  apply (bezierControlPoints_placement (fun _ => 0.25) (mkPoint 0 0) (mkPoint 1 0) None
           0%nat 0%nat).
  - intros i. lra.
  - intros H. injection H. lra.
Defined.

(** ** Step count and delays of a path *)

Lemma log2_le (x y : R) : 1 <= x <= y -> ln x / ln 2 <= ln y / ln 2.
Proof.
  intros [Hx Hxy].
  assert (H2 : 0 < ln 2) by (pose proof ln_lt_2; lra).
  assert (Hln : ln x <= ln y).
  { destruct Hxy as [Hlt|Heq]; [left; apply ln_increasing; lra | right; now rewrite Heq]. }
  unfold Rdiv. apply Rmult_le_compat_r; [|exact Hln].
  left. now apply Rinv_0_lt_compat.
Qed.

(** X6. Fitts's Law in the step count: with the same draw and the same
    options (a target width that is not negative), a longer move never gets
    fewer steps.  When [steps] is given and not zero the count is that
    value whatever the distance and no draw is made; otherwise the count is
    a whole number of at least 15 and one draw is made. *)
Theorem baseSteps_fitts_monotone
  (rnd : nat -> R) (opts : Opts) (d1 d2 : R) (fuel p : nat) :
  0 <= d1 <= d2 -> 0 < num_or (targetWidth opts) 50 ->
  exists (b1 b2 : R) (p' : nat),
    baseSteps rnd opts d1 fuel p = Some (Fin b1, p') /\
    baseSteps rnd opts d2 fuel p = Some (Fin b2, p') /\
    b1 <= b2 /\
    (truthy (steps opts) = true -> b1 = b2 /\ steps opts = Some b1 /\ p' = p) /\
    (truthy (steps opts) = false -> 15 <= b1 /\ is_integer b1 /\ p' = S p).
Proof.
  intros Hd Htw. unfold baseSteps.
  destruct (truthy (steps opts)) eqn:E.
  - eexists _, _, _. split; [reflexivity|]. split; [reflexivity|].
    split; [lra|]. split; [|discriminate].
    intros _. split; [reflexivity|]. split; [|reflexivity].
    unfold truthy, num_or in *. destruct (steps opts) as [v|]; [|discriminate].
    destruct (Reqb v 0); [discriminate | reflexivity].
  - set (tw := num_or (targetWidth opts) 50) in *.
    assert (H1 : 1 <= d1 / tw + 1 <= d2 / tw + 1).
    { assert (Hi : 0 < / tw) by now apply Rinv_0_lt_compat.
      unfold Rdiv. split; nra. }
    rewrite (log2_pos (d1 / tw + 1)) by lra.
    rewrite (log2_pos (d2 / tw + 1)) by lra. unfold Math.max.
    eexists _, _, _. split; [reflexivity|]. split; [reflexivity|].
    split; [|split; [discriminate|]].
    + apply Rle_max_compat_l. apply round_le.
      pose proof (log2_le _ _ H1). lra.
    + intros _. split; [apply Rmax_l|]. split; [|reflexivity].
      unfold Rmax. destruct (Rle_dec _ _);
        [apply round_is_integer | exists 15%Z; reflexivity].
Qed.

Lemma baseSteps_fitts_monotone_witness :
  exists (b1 b2 : R) (p' : nat),
    baseSteps (fun _ => 0.3) no_opts 100 0%nat 0%nat = Some (Fin b1, p') /\
    baseSteps (fun _ => 0.3) no_opts 500 0%nat 0%nat = Some (Fin b2, p') /\
    b1 <= b2 /\
    (truthy (steps no_opts) = true -> b1 = b2 /\ steps no_opts = Some b1 /\ p' = 0%nat) /\
    (truthy (steps no_opts) = false -> 15 <= b1 /\ is_integer b1 /\ p' = 1%nat).
Proof.
  apply (baseSteps_fitts_monotone (fun _ => 0.3) no_opts 100 500 0%nat 0%nat).
  - lra.
  - simpl. lra.
Defined.

Lemma speed_divisor_bounds (x : R) : 0.3 <= Math.max (0.3 + 0.7 * Math.sin x) 0.3 <= 1.
Proof.
  unfold Math.max, Math.sin. pose proof (SIN_bound x) as [_ Hs].
  split; [apply Rmax_r | apply Rmax_lub; lra].
Qed.

Lemma quotient_bounds (b m : R) : 4 <= b < 12 -> 0.3 <= m <= 1 -> 4 <= b / m < 40.
Proof.
  intros Hb Hm.
  assert (Hi : 1 <= / m <= / 0.3).
  { split.
    - rewrite <- Rinv_1. apply Rinv_le_contravar; lra.
    - apply Rinv_le_contravar; lra. }
  assert (E : 0.3 * / 0.3 = 1) by (apply Rinv_r; lra).
  unfold Rdiv. split; nra.
Qed.

(** A sampled point: whole pixels and a whole delay between 4 and 40. *)
Lemma runs_pathStep_delay rnd from to cp1 cp2 tremor bs i p :
  in_range rnd -> fair rnd ->
  runs (pathStep rnd from to cp1 cp2 tremor bs i) p
    (fun q _ => 4 <= dt q <= 40 /\ is_integer (dt q) /\
                is_integer (ptx q) /\ is_integer (pty q)).
Proof.
  intros Hr Hfair. unfold pathStep.
  apply runs_bind, runs_gauss; auto. intros jx p1.
  apply runs_bind, runs_gauss; auto. intros jy p2.
  apply runs_bind, runs_rand, runs_ret. simpl.
  pose proof (Hr p2) as Hp.
  pose proof (speed_divisor_bounds (Math.PI * (INR i / bs))) as Hm.
  assert (Hq : 4 <= (rnd p2 * (12 - 4) + 4)
                    / Math.max (0.3 + 0.7 * Math.sin (Math.PI * (INR i / bs))) 0.3 < 40).
  { apply quotient_bounds; [lra | exact Hm]. }
  split; [apply (round_between 4 40); lra|].
  repeat split; apply round_is_integer.
Qed.

Lemma Forall_set_last {A} (P : A -> Prop) (l : list A) (v : A) :
  Forall P l -> P v -> Forall P (set_last l v).
Proof.
  intros Hl Hv. destruct l as [|a l]; [constructor|].
  unfold set_last. apply Forall_app. split; [|constructor; [exact Hv | constructor]].
  assert (H : a :: l <> []) by discriminate.
  destruct (exists_last H) as [l' [x E]]. rewrite E in *.
  rewrite removelast_last. apply Forall_app in Hl. tauto.
Qed.

(** X7. Between points at least a pixel apart, every point of a generated
    path has whole-pixel coordinates and a delay between 2 and 40 ms: the
    sampled points a whole delay of 4 to 40, the final point a delay in
    [2, 6).  No point of such a path has a zero or negative delay. *)
Theorem generatePath_delays
  (rnd : nat -> R) (from to : Point2D) (opts : Opts) (p : nat) :
  in_range rnd -> fair rnd -> 1 <= vec.mag (vec.sub to from) ->
  runs (generatePath rnd from to opts) p
    (fun path _ =>
       Forall (fun q => 2 <= dt q <= 40 /\ is_integer (ptx q) /\ is_integer (pty q)) path).
Proof.
  intros Hr Hfair Hd. unfold generatePath.
  apply Rltb_false in Hd. rewrite Hd.
  apply runs_bind, runs_baseSteps. intros p1.
  apply runs_bind, runs_bezierControlPoints. intros cps.
  apply runs_bind. eapply runs_weaken.
  - apply runs_sample_loop. intros bs i s. now apply runs_pathStep_delay.
  - cbv beta. intros pts p2 [_ Hall]. apply runs_bind, runs_rand, runs_ret.
    apply Forall_set_last.
    + eapply Forall_impl; [|exact Hall]. cbv beta. intros q [H1 [_ [H2 H3]]].
      repeat split; try assumption; lra.
    + simpl. pose proof (Hr p2). repeat split; try apply round_is_integer; lra.
Qed.

Lemma generatePath_delays_witness :
  runs (generatePath (fun _ => 0.3) (mkPoint 0 0) (mkPoint 100 0) no_opts) 0%nat
    (fun path _ =>
       Forall (fun q => 2 <= dt q <= 40 /\ is_integer (ptx q) /\ is_integer (pty q)) path).
Proof.
  apply (generatePath_delays (fun _ => 0.3) (mkPoint 0 0) (mkPoint 100 0) no_opts 0%nat).
  - intros i. lra.
  - apply fair_03.
  - rewrite mag_100. lra.
Defined.

(** ** The overshoot path *)

Lemma unit_dot_self (a : Point2D) :
  a <> mkPoint 0 0 ->
  px (vec.unit a) * px (vec.unit a) + py (vec.unit a) * py (vec.unit a) = 1.
Proof.
  intros Hne. pose proof (mag_nonzero a Hne) as Hpos.
  pose proof (mag_sqr a) as Hsq.
  unfold vec.unit. destruct (Req_dec_T (vec.mag a) 0) as [E|E]; [lra|]. simpl.
  transitivity ((px a * px a + py a * py a) / (vec.mag a * vec.mag a)).
  - field. exact E.
  - rewrite <- Hsq. field. exact E.
Qed.

(** The overshoot target is at least [overshootDist] away from the target. *)
Lemma overshoot_target_far (from to : Point2D) (od g : R) :
  vec.sub to from <> mkPoint 0 0 -> 1 <= od ->
  1 <= vec.mag (vec.sub to
         (vec.add (vec.add to (vec.mult (vec.unit (vec.sub to from)) od))
                  (vec.mult (vec.perp (vec.unit (vec.sub to from))) g))).
Proof.
  intros Hne Hod. pose proof (unit_dot_self _ Hne) as Hu.
  set (u := vec.unit (vec.sub to from)) in *.
  set (v := vec.sub to (vec.add (vec.add to (vec.mult u od)) (vec.mult (vec.perp u) g))).
  pose proof (mag_sqr v) as Hsq. pose proof (mag_nonneg v) as Hn.
  assert (E : px v * px v + py v * py v = od * od + g * g).
  { unfold v, vec.sub, vec.add, vec.mult, vec.perp. simpl.
    transitivity ((px u * px u + py u * py u) * (od * od + g * g)); [ring|].
    rewrite Hu. ring. }
  rewrite E in Hsq. nra.
Qed.

Lemma last_app_nonempty {A} (l l' : list A) (d : A) :
  l' <> [] -> last (l ++ l') d = last l' d.
Proof.
  intros H. induction l as [|a l IH]; [reflexivity|].
  simpl. rewrite IH. destruct (l ++ l') eqn:E; [|reflexivity].
  apply app_eq_nil in E. destruct E as [_ E]. contradiction.
Qed.

Lemma mag_pos_nonzero (a : Point2D) : 0 < vec.mag a -> a <> mkPoint 0 0.
Proof. intros H E. rewrite E, mag_zero in H. lra. Qed.

(** X8. For a move of at least 12.5 px, draws in [0, 1) and a fair
    stream, the overshoot path is the first leg followed by a correction
    leg of at least 9 points, and it ends exactly at the rounded target:
    the overshoot target is always at least a pixel from the target, so the
    correction leg is never the single-point shortcut. *)
Theorem generateOvershootPath_ends_at_target
  (rnd : nat -> R) (from to : Point2D) (opts : Opts) (p : nat) :
  in_range rnd -> fair rnd -> 12.5 <= vec.mag (vec.sub to from) ->
  runs (generateOvershootPath rnd from to opts) p
    (fun path _ =>
       (9 <= List.length path)%nat /\
       ptx (last path (mkPathPoint 0 0 0)) = Math.round (px to) /\
       pty (last path (mkPathPoint 0 0 0)) = Math.round (py to)).
Proof.
  intros Hr Hfair Hd. unfold generateOvershootPath.
  assert (Hne : vec.sub to from <> mkPoint 0 0) by (apply mag_pos_nonzero; lra).
  apply runs_bind, runs_rand.
  set (od := rnd p * (Math.min 35 (vec.mag (vec.sub to from) * 0.08) - 8) + 8).
  assert (Hod : 1 <= od).
  { unfold od, Math.min, Rmin. pose proof (Hr p).
    destruct (Rle_dec 35 (vec.mag (vec.sub to from) * 0.08)); nra. }
  apply runs_bind, runs_gauss; auto. intros g p1.
  pose proof (overshoot_target_far from to od g Hne Hod) as Hfar.
  set (ot := vec.add (vec.add to (vec.mult (vec.unit (vec.sub to from)) od))
                     (vec.mult (vec.perp (vec.unit (vec.sub to from))) g)) in *.
  apply runs_bind. eapply runs_weaken.
  { apply runs_total. now apply total_generatePath. }
  intros leg1 p2 _. apply runs_bind. eapply runs_weaken.
  { apply runs_total. destruct (0 <? List.length leg1)%nat; totality. }
  intros leg1' p3 _. apply runs_bind, runs_rand.
  set (n2 := Math.max 8 (Math.round (rnd p3 * (18 - 8) + 8))).
  apply runs_bind. eapply runs_weaken.
  { apply generatePath_far; [exact Hfair | exact Hfar]. }
  cbv beta. intros leg2 p4 [pts [q [Hlen [_ Hpath]]]]. apply runs_ret.
  assert (E : step_count rnd
                (with_tremor (with_steps opts n2) (num_coalesce (tremor opts) 1.2 * 0.6))
                (vec.mag (vec.sub to ot)) (S p3) = Fin n2).
  { assert (H8 : 8 <= n2) by apply Rmax_l.
    apply step_count_given; [reflexivity | lra]. }
  rewrite E in Hlen. cbn [turns_num] in Hlen.
  assert (H9 : (9 <= List.length pts)%nat).
  { pose proof (turns_le_ge n2 8 (Rmax_l _ _)) as H. rewrite <- Hlen in H.
    simpl in H. lia. }
  assert (Hpts : pts <> []) by (intros Z; subst pts; simpl in H9; lia).
  destruct (set_last_last pts
              (mkPathPoint (Math.round (px to)) (Math.round (py to)) (rnd q * (6 - 2) + 2))
              (mkPathPoint 0 0 0) Hpts) as [Hl Hn].
  rewrite <- Hpath in Hl, Hn.
  split.
  - rewrite length_app, Hpath, set_last_length. lia.
  - rewrite last_app_nonempty by exact Hn. rewrite Hl. simpl. auto.
Qed.

Lemma generateOvershootPath_ends_at_target_witness :
  runs (generateOvershootPath (fun _ => 0.3) (mkPoint 0 0) (mkPoint 100 0) no_opts) 0%nat
    (fun path _ =>
       (9 <= List.length path)%nat /\
       ptx (last path (mkPathPoint 0 0 0)) = Math.round (px (mkPoint 100 0)) /\
       pty (last path (mkPathPoint 0 0 0)) = Math.round (py (mkPoint 100 0))).
Proof.
  apply (generateOvershootPath_ends_at_target (fun _ => 0.3) (mkPoint 0 0) (mkPoint 100 0)
           no_opts 0%nat).
  - intros i. lra.
  - apply fair_03.
  - rewrite mag_100. lra.
Defined.

(** ** Replaying a path *)

Lemma runs_replay (path : list PathPoint) :
  forall (w : World) (Q : unit -> World -> Prop),
    Q tt (mkWorld (rng w) (cursorPos w) (ghostCursor w) (events w ++ path_events path)) ->
    runs (replay path) w Q.
Proof.
  induction path as [|q rest IH]; intros w Q H.
  - simpl in *. rewrite app_nil_r in H. apply runs_ret. now destruct w.
  - unfold replay. cbn [fold_right]. fold (replay rest).
    apply runs_bind, runs_emit. apply runs_bind.
    cbn [path_events] in H.
    destruct (Rgtb (dt q) 0); cbn [when].
    + apply runs_emit. apply IH. simpl. rewrite <- !app_assoc. simpl in *. exact H.
    + apply runs_ret. apply IH. simpl. rewrite <- !app_assoc. simpl in *. exact H.
Qed.

Lemma moves_path_events (path : list PathPoint) :
  moves (path_events path) = map (fun q => mkPoint (ptx q) (pty q)) path.
Proof.
  induction path as [|q rest IH]; [reflexivity|].
  cbn [path_events moves map]. f_equal.
  destruct (Rgtb (dt q) 0); simpl; exact IH.
Qed.

Lemma waits_path_events_pos (path : list PathPoint) :
  Forall (fun ms => 0 < ms) (waits (path_events path)).
Proof.
  induction path as [|q rest IH]; [constructor|].
  cbn [path_events waits].
  destruct (Rgtb (dt q) 0) eqn:E; simpl; [|exact IH].
  constructor; [now apply Rgtb_true in E | exact IH].
Qed.

Lemma moves_app (a b : list Event) : moves (a ++ b) = moves a ++ moves b.
Proof.
  induction a as [|e a IH]; [reflexivity|].
  destruct e; simpl; rewrite IH; reflexivity.
Qed.

(** The path [moveTo] replays, whichever way it was planned. *)
Lemma runs_moveTo_events rnd mopts x y moveOpts w :
  fair rnd ->
  runs (moveTo rnd mopts x y moveOpts) w
    (fun _ w' =>
       cursorPos w' = mkPoint x y /\
       exists path, events w' = events w ++ path_events path).
Proof.
  intros Hfair. unfold moveTo.
  apply runs_bind, runs_get_cursorPos.
  apply runs_bind. eapply runs_weaken.
  { instantiate (1 := fun _ w1 => events w1 = events w).
    destruct (Rgtb _ _).
    - apply runs_bind, runs_liftR, runs_Math_random, runs_ret. reflexivity.
    - apply runs_ret. reflexivity. }
  cbv beta. intros so w1 E1. apply runs_bind, runs_liftR. eapply runs_weaken.
  { apply runs_total. destruct so;
      [now apply total_generateOvershootPath | now apply total_generatePath]. }
  cbv beta. intros path p2 _.
  apply runs_bind, runs_ensureVisibleCursor. intros g.
  apply runs_bind, runs_replay. apply runs_set_cursorPos. simpl.
  split; [reflexivity|]. exists path. now rewrite E1.
Qed.

(** X9. [moveTo] leaves the controller believing it is at the exact
    target, and what it sends to the page is a replay of one path: a move
    per path point, and only suspensions of a positive delay
    ([waitForTimeout] is never called with zero or less). *)
Theorem moveTo_replays_path
  (rnd : nat -> R) (mopts : MouseOpts) (x y : R) (moveOpts : Opts) (w : World) :
  fair rnd ->
  runs (moveTo rnd mopts x y moveOpts) w
    (fun _ w' =>
       cursorPos w' = mkPoint x y /\
       exists (path : list PathPoint) (evs : list Event),
         events w' = events w ++ evs /\
         evs = path_events path /\
         moves evs = map (fun q => mkPoint (ptx q) (pty q)) path /\
         Forall (fun ms => 0 < ms) (waits evs) /\
         wheels evs = 0%nat /\ keys evs = []).
Proof.
  intros Hfair. eapply runs_weaken; [now apply runs_moveTo_events|].
  cbv beta. intros u w' [Hc [path Hev]]. split; [exact Hc|].
  exists path, (path_events path). split; [exact Hev|]. split; [reflexivity|].
  split; [apply moves_path_events|]. split; [apply waits_path_events_pos|].
  clear. induction path as [|q rest [IH1 IH2]]; [split; reflexivity|].
  cbn [path_events wheels keys]. destruct (Rgtb (dt q) 0); simpl; auto.
Qed.

Lemma moveTo_replays_path_witness :
  runs (moveTo (fun _ => 0.3) mopts0 100 0 no_opts) (world0 (mkPoint 0 0))
    (fun _ w' => cursorPos w' = mkPoint 100 0).
Proof.
  eapply runs_weaken.
  - apply (moveTo_replays_path (fun _ => 0.3) mopts0 100 0 no_opts (world0 (mkPoint 0 0))).
    apply fair_03.
  - cbv beta. intros u w' [H _]. exact H.
Defined.

(** X10. A move of less than a pixel (and not beyond the overshoot
    threshold) draws no random number and sends exactly one move event, to
    the target as given, with no suspension. *)
Theorem moveTo_short_move
  (rnd : nat -> R) (mopts : MouseOpts) (x y : R) (moveOpts : Opts) (w : World) :
  vec.mag (vec.sub (mkPoint x y) (cursorPos w)) < 1 ->
  vec.mag (vec.sub (mkPoint x y) (cursorPos w))
    <= num_coalesce (overshootThreshold moveOpts) 300 ->
  runs (moveTo rnd mopts x y moveOpts) w
    (fun _ w' =>
       rng w' = rng w /\
       cursorPos w' = mkPoint x y /\
       events w' = events w ++ [MouseMove x y]).
Proof.
  intros Hd Hthr. unfold moveTo.
  apply runs_bind, runs_get_cursorPos.
  apply Rgtb_false in Hthr. rewrite Hthr. apply runs_bind, runs_ret.
  apply runs_bind, runs_liftR. unfold generatePath.
  apply Rltb_true in Hd. rewrite Hd. apply runs_ret.
  apply runs_bind, runs_ensureVisibleCursor. intros g.
  apply runs_bind, runs_replay. apply runs_set_cursorPos.
  cbn [path_events ptx pty dt rng cursorPos events].
  assert (E0 : Rgtb 0 0 = false) by (apply Rgtb_false; lra).
  rewrite E0. auto.
Qed.

Lemma moveTo_short_move_witness :
  runs (moveTo (fun _ => 0.3) mopts0 0 0 no_opts) (world0 (mkPoint 0 0))
    (fun _ w' =>
       rng w' = rng (world0 (mkPoint 0 0)) /\
       cursorPos w' = mkPoint 0 0 /\
       events w' = events (world0 (mkPoint 0 0)) ++ [MouseMove 0 0]).
Proof.
  apply (moveTo_short_move (fun _ => 0.3) mopts0 0 0 no_opts (world0 (mkPoint 0 0))).
  - simpl. rewrite (mag_self (mkPoint 0 0)). lra.
  - simpl. rewrite (mag_self (mkPoint 0 0)). lra.
Defined.

Lemma last_map_nonempty {A B} (f : A -> B) (l : list A) (d : B) (d' : A) :
  l <> [] -> last (map f l) d = f (last l d').
Proof.
  intros H. induction l as [|a l IH]; [congruence|].
  destruct l as [|b l]; [reflexivity|].
  change (last (map f (b :: l)) d = f (last (b :: l) d')). apply IH. discriminate.
Qed.

Lemma step_count_nonneg rnd opts d p :
  (forall s, steps opts = Some s -> 0 <= s) -> width_ok opts -> 0 <= d ->
  exists n : R, step_count rnd opts d p = Fin n /\ 0 <= n.
Proof.
  intros Hs Hw Hd. destruct (steps opts) as [s|] eqn:E.
  - destruct (Req_dec_T s 0) as [E0|E0].
    + subst s. destruct (step_count_auto rnd opts d p Hw Hd) as [n [Hn [H15 _]]];
        [now right|]. exists n. split; [exact Hn | lra].
    + exists s. split; [now apply step_count_given | now apply Hs].
  - destruct (step_count_auto rnd opts d p Hw Hd) as [n [Hn [H15 _]]];
      [now left|]. exists n. split; [exact Hn | lra].
Qed.

(** X11. On the direct path (a move of at least a pixel, not beyond the
    overshoot threshold, with [steps] and [targetWidth] not negative) the
    last move sent to the page is to the rounded target, while the
    controller's position is set to the target as given. *)
Theorem moveTo_direct_lands_rounded
  (rnd : nat -> R) (mopts : MouseOpts) (x y : R) (moveOpts : Opts) (w : World) :
  fair rnd ->
  1 <= vec.mag (vec.sub (mkPoint x y) (cursorPos w)) ->
  vec.mag (vec.sub (mkPoint x y) (cursorPos w))
    <= num_coalesce (overshootThreshold moveOpts) 300 ->
  (forall s, steps moveOpts = Some s -> 0 <= s) ->
  width_ok moveOpts ->
  runs (moveTo rnd mopts x y moveOpts) w
    (fun _ w' =>
       cursorPos w' = mkPoint x y /\
       exists evs : list Event,
         events w' = events w ++ evs /\
         moves evs <> [] /\
         last (moves evs) (mkPoint 0 0) = mkPoint (Math.round x) (Math.round y)).
Proof.
  intros Hfair Hd Hthr Hsteps Hw. unfold moveTo.
  apply runs_bind, runs_get_cursorPos.
  apply Rgtb_false in Hthr. rewrite Hthr. apply runs_bind, runs_ret.
  destruct (step_count_nonneg rnd moveOpts
              (vec.mag (vec.sub (mkPoint x y) (cursorPos w))) (rng w) Hsteps Hw)
    as [n [Hn Hn0]]; [lra|].
  apply runs_bind, runs_liftR. eapply runs_weaken.
  { apply (generatePath_last_snapped rnd (cursorPos w) (mkPoint x y) moveOpts (rng w) n);
      assumption. }
  cbv beta. intros path p2 [Hne [Hx Hy]].
  apply runs_bind, runs_ensureVisibleCursor. intros g.
  apply runs_bind, runs_replay. apply runs_set_cursorPos.
  cbn [rng cursorPos events]. split; [reflexivity|].
  exists (path_events path). split; [reflexivity|].
  rewrite moves_path_events. split.
  - destruct path; [congruence | discriminate].
  - rewrite (last_map_nonempty _ path _ (mkPathPoint 0 0 0) Hne).
    simpl in Hx, Hy. now rewrite Hx, Hy.
Qed.

Lemma moveTo_direct_lands_rounded_witness :
  runs (moveTo (fun _ => 0.3) mopts0 100 0 (mkOpts (Some 20) None None (Some 50) None None))
       (world0 (mkPoint 0 0))
    (fun _ w' =>
       cursorPos w' = mkPoint 100 0 /\
       exists evs : list Event,
         events w' = events (world0 (mkPoint 0 0)) ++ evs /\
         moves evs <> [] /\
         last (moves evs) (mkPoint 0 0) = mkPoint (Math.round 100) (Math.round 0)).
Proof.
  apply (moveTo_direct_lands_rounded (fun _ => 0.3) mopts0 100 0
           (mkOpts (Some 20) None None (Some 50) None None) (world0 (mkPoint 0 0))).
  - apply fair_03.
  - simpl. rewrite mag_100. lra.
  - simpl. rewrite mag_100. lra.
  - intros s H. simpl in H. injection H. lra.
  - intros tw H. simpl in H. injection H. lra.
Defined.

(** ** Clicking *)

Lemma runs_click rnd clickOpts w (Q : unit -> World -> Prop) :
  let b := str_or (button clickOpts) "left" in
  Q tt (mkWorld (S (S (S (rng w)))) (cursorPos w) (ghostCursor w)
          (events w ++
           [WaitForTimeout (Math.round (rnd (rng w) * (180 - 60) + 60));
            MouseDown b;
            WaitForTimeout (Math.round (rnd (S (rng w)) * (120 - 50) + 50));
            MouseUp b;
            WaitForTimeout (Math.round (rnd (S (S (rng w))) * (200 - 80) + 80))])) ->
  runs (click rnd clickOpts) w Q.
Proof.
  intros b H. unfold click.
  apply runs_bind, runs_pause.
  apply runs_bind, runs_emit.
  apply runs_bind, runs_pause.
  apply runs_bind, runs_emit.
  apply runs_pause. simpl. rewrite <- !app_assoc. exact H.
Qed.

Lemma str_or_nonempty (a : option string) (d : string) :
  d <> EmptyString -> str_or a d <> EmptyString.
Proof.
  intros Hd. unfold str_or. destruct a as [v|]; [|exact Hd].
  destruct (string_dec v EmptyString); assumption.
Qed.

(** X12. [click] takes three draws and sends, in this order, a dwell of 60
    to 180 ms, one button-down, a hold of 50 to 120 ms, one button-up on the
    same button, and a settle of 80 to 200 ms, every delay a whole number.
    The button is the one given, or ['left'] when none (or an empty name) is
    given. *)
Theorem click_events (rnd : nat -> R) (clickOpts : Opts) (w : World) :
  in_range rnd ->
  runs (click rnd clickOpts) w
    (fun _ w' =>
       exists (b : string) (d1 d2 d3 : R),
         events w' = events w ++
           [WaitForTimeout d1; MouseDown b; WaitForTimeout d2; MouseUp b; WaitForTimeout d3] /\
         b = str_or (button clickOpts) "left" /\ b <> EmptyString /\
         (button clickOpts = None -> b = "left"%string) /\
         60 <= d1 <= 180 /\ 50 <= d2 <= 120 /\ 80 <= d3 <= 200 /\
         is_integer d1 /\ is_integer d2 /\ is_integer d3 /\
         rng w' = (rng w + 3)%nat).
Proof.
  intros Hr. apply runs_click. cbv zeta.
  eexists _, _, _, _. split; [reflexivity|].
  pose proof (Hr (rng w)). pose proof (Hr (S (rng w))). pose proof (Hr (S (S (rng w)))).
  split; [reflexivity|].
  split; [apply str_or_nonempty; discriminate|].
  split; [intros E; rewrite E; reflexivity|].
  split; [apply (round_between 60 180); lra|].
  split; [apply (round_between 50 120); lra|].
  split; [apply (round_between 80 200); lra|].
  repeat split; try apply round_is_integer. simpl. lia.
Qed.

Lemma click_events_witness :
  runs (click (fun _ => 0.3) no_opts) (world0 (mkPoint 0 0))
    (fun _ w' => rng w' = 3%nat).
Proof.
  eapply runs_weaken.
  - apply (click_events (fun _ => 0.3) no_opts (world0 (mkPoint 0 0))).
    intros i. lra.
  - cbv beta. intros u w' [b [d1 [d2 [d3 H]]]].
    decompose [and] H. assumption.
Defined.

(** ** Move and click *)

Lemma runs_self {St A} (m : M St A) (s : St) :
  total m -> runs m s (fun a s' => yields m s (a, s')).
Proof. intros H. destruct (H s) as [[a s'] Hy]. now exists a, s'. Qed.

(** [moveTo] replays the path it planned, and only that. *)
Lemma runs_moveTo_planned rnd mopts x y moveOpts w :
  fair rnd ->
  runs (moveTo rnd mopts x y moveOpts) w
    (fun _ w' =>
       cursorPos w' = mkPoint x y /\
       exists path,
         planned_path rnd (cursorPos w) (mkPoint x y) moveOpts (rng w) path (rng w') /\
         events w' = events w ++ path_events path).
Proof.
  intros Hfair. unfold moveTo, planned_path.
  apply runs_bind, runs_get_cursorPos.
  destruct (Rgtb (vec.mag (vec.sub (mkPoint x y) (cursorPos w)))
              (num_coalesce (overshootThreshold moveOpts) 300)).
  - apply runs_bind, runs_bind, runs_liftR, runs_Math_random, runs_ret.
    cbn [rng cursorPos ghostCursor events].
    destruct (Rgtb (rnd (rng w)) 0.3).
    + apply runs_bind, runs_liftR. eapply runs_weaken.
      { apply runs_self. now apply total_generateOvershootPath. }
      cbv beta. intros path p2 Hy.
      apply runs_bind, runs_ensureVisibleCursor. intros g.
      apply runs_bind, runs_replay. apply runs_set_cursorPos.
      cbn [rng cursorPos ghostCursor events] in *.
      split; [reflexivity|]. exists path. split; [exact Hy | reflexivity].
    + apply runs_bind, runs_liftR. eapply runs_weaken.
      { apply runs_self. now apply total_generatePath. }
      cbv beta. intros path p2 Hy.
      apply runs_bind, runs_ensureVisibleCursor. intros g.
      apply runs_bind, runs_replay. apply runs_set_cursorPos.
      cbn [rng cursorPos ghostCursor events] in *.
      split; [reflexivity|]. exists path. split; [exact Hy | reflexivity].
  - apply runs_bind, runs_ret.
    apply runs_bind, runs_liftR. eapply runs_weaken.
    { apply runs_self. now apply total_generatePath. }
    cbv beta. intros path p2 Hy.
    apply runs_bind, runs_ensureVisibleCursor. intros g.
    apply runs_bind, runs_replay. apply runs_set_cursorPos.
    cbn [rng cursorPos ghostCursor events] in *.
    split; [reflexivity|]. exists path. split; [exact Hy | reflexivity].
Qed.

(** What [moveToElement] does: two draws choose the point, and [moveTo]
    goes there with the box's width as the target width. *)
Lemma moveToElement_planned rnd mopts box moveOpts w :
  fair rnd ->
  runs (moveToElement rnd mopts box moveOpts) w
    (fun pt w1 =>
       pt = mkPoint
              (Math.round (bx box + width box * 0.15
                           + rnd (rng w) * (width box - 2 * (width box * 0.15))))
              (Math.round (by_ box + height box * 0.15
                           + rnd (S (rng w)) * (height box - 2 * (height box * 0.15)))) /\
       cursorPos w1 = pt /\
       exists path,
         planned_path rnd (cursorPos w) pt (with_targetWidth moveOpts (width box))
           (S (S (rng w))) path (rng w1) /\
         events w1 = events w ++ path_events path).
Proof.
  intros Hfair. apply runs_moveToElement. cbv zeta.
  eapply runs_weaken; [now apply runs_moveTo_planned|].
  cbv beta. cbn [rng cursorPos ghostCursor events].
  intros u w1 [Hc [path [Hp Hev]]].
  split; [f_equal; f_equal; lra|]. split; [exact Hc|].
  exists path. split; [exact Hp | exact Hev].
Qed.

(** X13. [moveAndClick] is [moveToElement] followed by a click at the same
    place.  The point it returns is the one [moveToElement] chose inside the
    box from two draws (the inner 70% on each axis, rounded), and it is the
    controller's position when it returns.  The page gets, in this order,
    the replay of the path [moveTo] planned from the old position to that
    point with the box's width as target width, the log entry (when a log
    function was given; the label defaults to ['element']), a hover pause of
    100 to 400 ms, and the five events of a click; the hover and the click
    take four draws. *)
Theorem moveAndClick_composes
  (rnd : nat -> R) (mopts : MouseOpts) (box : BoundingBox) (label : option string)
  (clickOpts : Opts) (w : World) :
  in_range rnd -> fair rnd ->
  runs (moveAndClick rnd mopts box label clickOpts) w
    (fun pt w' =>
       pt = mkPoint
              (Math.round (bx box + width box * 0.15
                           + rnd (rng w) * (width box - 2 * (width box * 0.15))))
              (Math.round (by_ box + height box * 0.15
                           + rnd (S (rng w)) * (height box - 2 * (height box * 0.15)))) /\
       cursorPos w' = pt /\
       is_integer (px pt) /\ is_integer (py pt) /\
       exists (w1 : World) (path : list PathPoint) (h d1 d2 d3 : R),
         let b := str_or (button clickOpts) "left" in
         yields (moveToElement rnd mopts box clickOpts) w (pt, w1) /\
         planned_path rnd (cursorPos w) pt (with_targetWidth clickOpts (width box))
           (S (S (rng w))) path (rng w1) /\
         events w1 = events w ++ path_events path /\
         events w' =
           events w ++ path_events path ++
           (if log mopts then [Log (str_or label "element") pt] else []) ++
           [WaitForTimeout h;
            WaitForTimeout d1; MouseDown b; WaitForTimeout d2; MouseUp b; WaitForTimeout d3] /\
         rng w' = (rng w1 + 4)%nat /\
         100 <= h <= 400 /\ 60 <= d1 <= 180 /\ 50 <= d2 <= 120 /\ 80 <= d3 <= 200).
Proof.
  intros Hr Hfair. unfold moveAndClick.
  destruct (moveToElement_planned rnd mopts box clickOpts w Hfair)
    as [pt [w1 [Hy [Hpt [Hc [path [Hp Hev]]]]]]].
  apply runs_bind. exists pt, w1. split; [exact Hy|].
  apply runs_bind.
  assert (Hlog : forall Q : unit -> World -> Prop,
            Q tt (mkWorld (rng w1) (cursorPos w1) (ghostCursor w1)
                    (events w1 ++ (if log mopts
                                   then [Log (str_or label "element") pt] else []))) ->
            runs (when (log mopts) (emit (Log (str_or label "element") pt))) w1 Q).
  { intros Q HQ. destruct (log mopts); cbn [when].
    - apply runs_emit. exact HQ.
    - apply runs_ret. rewrite app_nil_r in HQ. now destruct w1. }
  apply Hlog. apply runs_bind, runs_pause. apply runs_bind, runs_click. cbv zeta.
  apply runs_ret. cbn [rng cursorPos events ghostCursor].
  split; [exact Hpt|]. split; [exact Hc|].
  split; [rewrite Hpt; apply round_is_integer|].
  split; [rewrite Hpt; apply round_is_integer|].
  exists w1, path. eexists _, _, _, _. cbv zeta.
  split; [exact Hy|]. split; [exact Hp|]. split; [exact Hev|].
  split; [rewrite Hev; rewrite <- !app_assoc; reflexivity|].
  split; [lia|].
  pose proof (Hr (rng w1)). pose proof (Hr (S (rng w1))).
  pose proof (Hr (S (S (rng w1)))). pose proof (Hr (S (S (S (rng w1))))).
  split; [apply (round_between 100 400); lra|].
  split; [apply (round_between 60 180); lra|].
  split; [apply (round_between 50 120); lra|].
  apply (round_between 80 200); lra.
Qed.

Lemma moveAndClick_composes_witness :
  runs (moveAndClick (fun _ => 0.3) mopts0 (mkBox 100 100 40 20) None no_opts)
       (world0 (mkPoint 0 0))
    (fun pt w' => cursorPos w' = pt).
Proof.
  eapply runs_weaken.
  - apply (moveAndClick_composes (fun _ => 0.3) mopts0 (mkBox 100 100 40 20) None no_opts
             (world0 (mkPoint 0 0))).
    + intros i. lra.
    + apply fair_03.
  - cbv beta. intros pt w' [_ [H _]]. exact H.
Defined.

(** ** The controller's first position *)

(** X14. A controller starts at the [startPos] given, without a draw; with
    none given it takes two draws and starts at a whole-pixel point with x
    in [100, 350] and y in [300, 500].  The page's log is left as it was. *)
Theorem createHumanMouse_start
  (rnd : nat -> R) (mopts : MouseOpts) (p : nat) (ghost : bool) (evs : list Event) :
  in_range rnd ->
  let w := createHumanMouse rnd mopts p ghost evs in
  events w = evs /\
  (forall q, startPos mopts = Some q -> cursorPos w = q /\ rng w = p) /\
  (startPos mopts = None ->
     100 <= px (cursorPos w) <= 350 /\ 300 <= py (cursorPos w) <= 500 /\
     is_integer (px (cursorPos w)) /\ is_integer (py (cursorPos w)) /\
     rng w = (p + 2)%nat).
Proof.
  intros Hr w. unfold w, createHumanMouse.
  destruct (startPos mopts) as [q0|]; cbn [events cursorPos rng px py].
  - split; [reflexivity|]. split; [|discriminate].
    intros q E. injection E as ->. auto.
  - split; [reflexivity|]. split; [discriminate|]. intros _.
    pose proof (Hr p). pose proof (Hr (S p)).
    split; [apply (round_between 100 350); lra|].
    split; [apply (round_between 300 500); lra|].
    repeat split; try apply round_is_integer. lia.
Qed.

Lemma createHumanMouse_start_witness :
  100 <= px (cursorPos (createHumanMouse (fun _ => 0.3) mopts0 0 false [])) <= 350.
Proof.
  destruct (createHumanMouse_start (fun _ => 0.3) mopts0 0 false []) as [_ [_ H]].
  - intros i. lra.
  - destruct (H eq_refl) as [Hx _]. exact Hx.
Defined.

(** ** Idle drift *)

Lemma last_nonempty_default {A} (l : list A) :
  forall a d d' : A, last (a :: l) d = last (a :: l) d'.
Proof.
  induction l as [|b l IH]; intros a d d'; [reflexivity|].
  change (last (b :: l) d = last (b :: l) d'). apply IH.
Qed.

Lemma last_cons_default {A} (a d : A) (l : list A) : last (a :: l) d = last l a.
Proof.
  destruct l as [|b l]; [reflexivity|].
  change (last (b :: l) d = last (b :: l) a). apply last_nonempty_default.
Qed.

Lemma runs_drift_loop rnd :
  in_range rnd -> fair rnd ->
  forall n i w,
    runs (for_loop n i (fun _ =>
            dx <- liftR (gauss rnd 0 3) ;;
            dy <- liftR (gauss rnd 0 3) ;;
            cur <- get_cursorPos ;;
            let next := mkPoint (Math.round (px cur + dx)) (Math.round (py cur + dy)) in
            emit (MouseMove (px next) (py next)) ;;;
            set_cursorPos next ;;;
            pause rnd 150 400)) w
      (fun _ w' =>
         exists turns : list (Point2D * R),
           List.length turns = n /\
           events w' = events w ++ drift_events turns /\
           Forall (fun t => is_integer (px (fst t)) /\ is_integer (py (fst t)) /\
                            150 <= snd t <= 400 /\ is_integer (snd t)) turns /\
           cursorPos w' = last (map fst turns) (cursorPos w)).
Proof.
  intros Hr Hfair n. induction n as [|n IH]; intros i w; cbn [for_loop].
  - apply runs_ret. exists []. simpl. rewrite app_nil_r. repeat split. constructor.
  - apply runs_bind.
    apply runs_bind, runs_liftR, runs_gauss; auto. intros dx p1.
    apply runs_bind, runs_liftR, runs_gauss; auto. intros dy p2.
    apply runs_bind, runs_get_cursorPos. cbv zeta.
    apply runs_bind, runs_emit. apply runs_bind, runs_set_cursorPos.
    apply runs_pause. cbn [rng cursorPos events ghostCursor px py].
    eapply runs_weaken; [apply IH|].
    cbv beta. intros u w' [turns [Hlen [Hev [Hall Hc]]]].
    cbn [rng cursorPos events ghostCursor] in Hev, Hc.
    set (next := mkPoint (Math.round (px (cursorPos w) + dx))
                         (Math.round (py (cursorPos w) + dy))) in *.
    set (d := Math.round (rnd p2 * (400 - 150) + 150)) in *.
    exists ((next, d) :: turns).
    split; [simpl; congruence|]. split.
    { rewrite Hev. simpl. rewrite <- !app_assoc. reflexivity. }
    split.
    { constructor; [|exact Hall]. simpl. pose proof (Hr p2).
      repeat split; try apply round_is_integer;
        unfold d; apply (round_between 150 400); lra. }
    rewrite Hc. cbn [map fst]. now rewrite last_cons_default.
Qed.

Lemma drift_turns_default (r : R) : 200 <= r < 500 -> (4 <= Math.roundZ (2000 / r) <= 10)%Z.
Proof.
  intros Hrr.
  assert (Hi : 0 < / r) by (apply Rinv_0_lt_compat; lra).
  assert (E : r * / r = 1) by (apply Rinv_r; lra).
  assert (Hq : 4 <= 2000 / r <= 10) by (unfold Rdiv; split; nra).
  assert (E4 : Math.roundZ 4 = 4%Z) by (apply roundZ_eq; lra).
  assert (E10 : Math.roundZ 10 = 10%Z) by (apply roundZ_eq; lra).
  pose proof (roundZ_le 4 (2000 / r)) as L. pose proof (roundZ_le (2000 / r) 10) as U.
  rewrite E4 in L. rewrite E10 in U. split; [apply L | apply U]; lra.
Qed.

(** X15. [idleDrift] keeps the controller's position in step with the
    page: it sends one move and one suspension of 150 to 400 ms per turn,
    each move to a whole-pixel point, and when it returns the position is
    the target of the last move (or unchanged when there was no turn).  The
    number of turns is [round(durationMs / uniform(200,500))], drawn once:
    between 4 and 10 for the default 2000 ms, and none for a duration that
    is zero or negative. *)
Theorem idleDrift_tracks_position
  (rnd : nat -> R) (durationMs : option R) (w : World) :
  in_range rnd -> fair rnd ->
  runs (idleDrift rnd durationMs) w
    (fun _ w' =>
       exists turns : list (Point2D * R),
         let d := num_coalesce durationMs 2000 in
         List.length turns
           = Z.to_nat (Math.roundZ (d / (rnd (rng w) * (500 - 200) + 200))) /\
         events w' = events w ++ drift_events turns /\
         Forall (fun t => is_integer (px (fst t)) /\ is_integer (py (fst t)) /\
                          150 <= snd t <= 400 /\ is_integer (snd t)) turns /\
         cursorPos w' = last (map fst turns) (cursorPos w) /\
         (durationMs = None -> (4 <= List.length turns <= 10)%nat) /\
         (d <= 0 -> turns = [])).
Proof.
  intros Hr Hfair. unfold idleDrift. cbv zeta.
  apply runs_bind, runs_liftR, runs_rand.
  eapply runs_weaken; [now apply runs_drift_loop|].
  cbv beta. intros u w' [turns [Hlen [Hev [Hall Hc]]]].
  cbn [rng cursorPos events ghostCursor] in Hev, Hc.
  exists turns. cbv zeta. pose proof (Hr (rng w)) as H0.
  split; [exact Hlen|]. split; [exact Hev|]. split; [exact Hall|]. split; [exact Hc|].
  split.
  - intros E. rewrite Hlen, E. cbn [num_coalesce].
    pose proof (drift_turns_default (rnd (rng w) * (500 - 200) + 200)) as Hb.
    assert (Hrange : 200 <= rnd (rng w) * (500 - 200) + 200 < 500) by lra.
    specialize (Hb Hrange). lia.
  - intros Hd.
    set (r := rnd (rng w) * (500 - 200) + 200) in *.
    assert (Hi : 0 < / r) by (apply Rinv_0_lt_compat; unfold r; lra).
    assert (Hq : num_coalesce durationMs 2000 / r <= 0) by (unfold Rdiv; nra).
    assert (E0 : Math.roundZ 0 = 0%Z) by (apply roundZ_eq; lra).
    pose proof (roundZ_le _ _ Hq) as L. rewrite E0 in L.
    assert (Hz : List.length turns = 0%nat) by lia.
    now destruct turns.
Qed.

Lemma idleDrift_tracks_position_witness :
  runs (idleDrift (fun _ => 0.3) None) (world0 (mkPoint 0 0))
    (fun _ w' => (4 <= List.length (moves (events w')) <= 10)%nat).
Proof.
  eapply runs_weaken.
  - apply (idleDrift_tracks_position (fun _ => 0.3) None (world0 (mkPoint 0 0))).
    + intros i. lra.
    + apply fair_03.
  - cbv beta zeta. intros u w' [turns [_ [Hev [_ [_ [Hn _]]]]]].
    simpl in Hev. rewrite Hev.
    assert (E : forall l, List.length (moves (drift_events l)) = List.length l).
    { induction l as [|t l IH]; simpl; [reflexivity | now rewrite IH]. }
    rewrite E. now apply Hn.
Defined.

(** ** Typing a text *)

Lemma keys_app (a b : list Event) : keys (a ++ b) = keys a ++ keys b.
Proof.
  induction a as [|e a IH]; [reflexivity|].
  destruct e; simpl; rewrite IH; reflexivity.
Qed.

Lemma waits_app (a b : list Event) : waits (a ++ b) = waits a ++ waits b.
Proof.
  induction a as [|e a IH]; [reflexivity|].
  destruct e; simpl; rewrite IH; reflexivity.
Qed.

Lemma chars_length (s : string) : List.length (chars s) = String.length s.
Proof. induction s as [|c s IH]; simpl; [reflexivity | now rewrite IH]. Qed.

Lemma get_chars (text : string) :
  forall i,
    match String.get i text with
    | Some c => String c EmptyString
    | None => EmptyString
    end = nth i (chars text) EmptyString.
Proof.
  induction text as [|c text IH]; intros i; [destruct i; reflexivity|].
  destruct i as [|i]; [reflexivity|]. simpl. apply IH.
Qed.

Lemma str_at_chars (text : string) (i : nat) :
  match str_at text (Z.of_nat i) with Some c => c | None => EmptyString end
  = nth i (chars text) EmptyString.
Proof.
  unfold str_at. destruct (Z.of_nat i <? 0)%Z eqn:E; [apply Z.ltb_lt in E; lia|].
  rewrite Nat2Z.id. rewrite <- get_chars. destruct (String.get i text); reflexivity.
Qed.

Lemma nth_seq_all {A} (l : list A) (d : A) :
  map (fun j => nth j l d) (seq 0 (List.length l)) = l.
Proof.
  induction l as [|a l IH]; [reflexivity|].
  cbn [List.length seq map nth]. f_equal.
  rewrite <- seq_shift, map_map. exact IH.
Qed.

Lemma wheels_app (a b : list Event) : wheels (a ++ b) = (wheels a + wheels b)%nat.
Proof.
  induction a as [|e a IH]; [reflexivity|].
  destruct e; simpl; rewrite IH; reflexivity.
Qed.

(** What one turn of the typing loop sends: at most two pauses, the key,
    and the delay after it. *)
Lemma runs_typeStep rnd text bd var i w :
  in_range rnd -> fair rnd ->
  runs (typeStep rnd text bd var i) w
    (fun _ w' =>
       exists evs : list Event,
         events w' = events w ++ evs /\
         Forall key_or_wait evs /\
         keys evs = [nth i (chars text) EmptyString] /\
         Forall (fun ms => 20 <= ms) (waits evs) /\
         (1 <= List.length (waits evs))%nat /\
         moves evs = [] /\ wheels evs = 0%nat /\
         cursorPos w' = cursorPos w).
Proof.
  intros Hr Hfair. unfold typeStep. cbv zeta. rewrite str_at_chars.
  assert (H20 : forall g, 20 <= Math.round (Math.max 20 g)).
  { intros g. rewrite <- (round_IZR 20) at 1. apply round_le. apply Rmax_l. }
  assert (Hp1 : forall q, 20 <= Math.round (rnd q * (600 - 200) + 200)).
  { intros q. pose proof (Hr q) as Hq.
    assert (Hb : 200 <= rnd q * (600 - 200) + 200 <= 600) by lra.
    apply (round_between 200 600) in Hb. lra. }
  assert (Hp2 : forall q, 20 <= Math.round (rnd q * (200 - 80) + 80)).
  { intros q. pose proof (Hr q) as Hq.
    assert (Hb : 80 <= rnd q * (200 - 80) + 80 <= 200) by lra.
    apply (round_between 80 200) in Hb. lra. }
  apply runs_bind, runs_liftR, runs_Math_random.
  apply runs_bind.
  destruct (Rltb (rnd (rng w)) 0.08 && (0 <? i)%nat); cbn [when];
    [apply runs_pause | apply runs_ret];
    (apply runs_bind;
     destruct (punct_test text i); cbn [when];
       [apply runs_pause | apply runs_ret];
       apply runs_bind, runs_emit;
       apply runs_bind, runs_liftR, runs_gauss; auto; intros g q;
       apply runs_emit;
       cbn [rng cursorPos events ghostCursor];
       eexists; (split; [rewrite <- !app_assoc; reflexivity|]);
       (split; [repeat (apply Forall_cons; [exact I|]); apply Forall_nil|]);
       cbn [app keys waits moves wheels List.length];
       (split; [reflexivity|]);
       (split; [repeat (apply Forall_cons; [auto|]); apply Forall_nil|]);
       (split; [lia|]); auto).
Qed.

Lemma runs_type_loop rnd text bd var :
  in_range rnd -> fair rnd ->
  forall n i w,
    runs (for_loop n i (typeStep rnd text bd var)) w
      (fun _ w' =>
         exists evs : list Event,
           events w' = events w ++ evs /\
           Forall key_or_wait evs /\
           keys evs = map (fun j => nth j (chars text) EmptyString) (seq i n) /\
           Forall (fun ms => 20 <= ms) (waits evs) /\
           (n <= List.length (waits evs))%nat /\
           moves evs = [] /\ wheels evs = 0%nat /\
           cursorPos w' = cursorPos w /\
           (n = 0%nat -> evs = [] /\ w' = w)).
Proof.
  intros Hr Hfair n. induction n as [|n IH]; intros i w; cbn [for_loop].
  - apply runs_ret. exists []. rewrite app_nil_r. simpl.
    repeat split; auto.
  - apply runs_bind. eapply runs_weaken; [now apply runs_typeStep|].
    cbv beta. intros u w1 [e1 [Hev1 [Hf1 [Hk1 [Hw1 [Hl1 [Hm1 [Hh1 Hc1]]]]]]]].
    eapply runs_weaken; [apply IH|].
    cbv beta. intros u' w2 [e2 [Hev2 [Hf2 [Hk2 [Hw2 [Hn2 [Hm2 [Hh2 [Hc2 _]]]]]]]]].
    exists (e1 ++ e2).
    split; [rewrite Hev2, Hev1, app_assoc; reflexivity|].
    split; [apply Forall_app; auto|].
    split; [rewrite keys_app, Hk1, Hk2; reflexivity|].
    split; [rewrite waits_app; apply Forall_app; auto|].
    split; [rewrite waits_app, length_app; lia|].
    split; [rewrite moves_app, Hm1, Hm2; reflexivity|].
    split; [rewrite wheels_app, Hh1, Hh2; reflexivity|].
    split; [congruence | discriminate].
Qed.

(** X16. [humanType] presses the characters of the text, each once and in
    order, and nothing else reaches the page but suspensions: every event it
    sends is a key press or a suspension (no mouse move, button, wheel or
    log event), every suspension is at least 20 ms, and there is at least
    one per character.  It leaves the controller's position alone; for the
    empty text it sends nothing and takes no draw. *)
Theorem humanType_types_text
  (rnd : nat -> R) (text : string) (opts : TypingConfig) (w : World) :
  in_range rnd -> fair rnd ->
  runs (humanType rnd text opts) w
    (fun _ w' =>
       exists evs : list Event,
         events w' = events w ++ evs /\
         Forall key_or_wait evs /\
         keys evs = chars text /\
         Forall (fun ms => 20 <= ms) (waits evs) /\
         (String.length text <= List.length (waits evs))%nat /\
         List.length evs = (List.length (keys evs) + List.length (waits evs))%nat /\
         moves evs = [] /\ wheels evs = 0%nat /\
         cursorPos w' = cursorPos w /\
         (text = EmptyString -> evs = [] /\ w' = w)).
Proof.
  intros Hr Hfair. unfold humanType. cbv zeta.
  eapply runs_weaken; [now apply runs_type_loop|].
  cbv beta. intros u w' [evs [Hev [Hf [Hk [Hw [Hn [Hm [Hh [Hc H0]]]]]]]]].
  exists evs. rewrite <- chars_length in Hk. rewrite nth_seq_all in Hk.
  split; [exact Hev|]. split; [exact Hf|]. split; [exact Hk|]. split; [exact Hw|].
  split; [exact Hn|].
  split; [clear - Hf; induction Hf as [|e l He _ IH]; [reflexivity|];
          destruct e; try contradiction; cbn [keys waits List.length]; lia|].
  split; [exact Hm|]. split; [exact Hh|]. split; [exact Hc|].
  intros E. subst text. now apply H0.
Qed.

Lemma humanType_types_text_witness :
  runs (humanType (fun _ => 0.3) "hi, you" (mkTypingConfig None None)) (world0 (mkPoint 0 0))
    (fun _ w' => keys (events w') = ["h"; "i"; ","; " "; "y"; "o"; "u"]%string).
Proof.
  eapply runs_weaken.
  - apply (humanType_types_text (fun _ => 0.3) "hi, you" (mkTypingConfig None None)
             (world0 (mkPoint 0 0))).
    + intros i. lra.
    + apply fair_03.
  - cbv beta. intros u w' [evs [Hev [_ [Hk _]]]].
    simpl in Hev. rewrite Hev. exact Hk.
Defined.

(** ** When the Gaussian sampler returns *)

Lemma gaussRandom_returns_accepted rnd :
  forall fuel p r, gaussRandom rnd fuel p = Some r -> exists k, accepted rnd (p + 2 * k).
Proof.
  induction fuel as [|fuel IH]; intros p r H; [discriminate|].
  rewrite gaussRandom_S in H.
  destruct (Rgeb (pair_s rnd p) 1 || Reqb (pair_s rnd p) 0) eqn:E.
  - destruct (IH _ _ H) as [k Hk]. exists (S k).
    now replace (p + 2 * S k)%nat with (S (S p) + 2 * k)%nat by lia.
  - exists 0%nat. replace (p + 2 * 0)%nat with p by lia. now apply accepted_iff.
Qed.

(** What a returned call has read: the pairs before the first accepted
    one, all rejected, and then that pair. *)
Lemma gaussRandom_returns_first rnd :
  forall fuel p g p', gaussRandom rnd fuel p = Some (g, p') ->
    exists k, (k < fuel)%nat /\
              accepted rnd (p + 2 * k) /\
              (forall j, (j < k)%nat -> ~ accepted rnd (p + 2 * j)) /\
              p' = (p + 2 * k + 2)%nat /\ g = deviate rnd (p + 2 * k).
Proof.
  induction fuel as [|fuel IH]; intros p g p' H; [discriminate|].
  rewrite gaussRandom_S in H.
  destruct (Rgeb (pair_s rnd p) 1 || Reqb (pair_s rnd p) 0) eqn:E.
  - destruct (IH _ _ _ H) as [k [Hlt [Hacc [Hrej [Hp' Hg]]]]].
    exists (S k).
    replace (p + 2 * S k)%nat with (S (S p) + 2 * k)%nat by lia.
    split; [lia|]. split; [exact Hacc|]. split; [|split; [lia | exact Hg]].
    intros j Hj. destruct j as [|j].
    + replace (p + 2 * 0)%nat with p by lia.
      intros Hp. apply accepted_iff in Hp. congruence.
    + replace (p + 2 * S j)%nat with (S (S p) + 2 * j)%nat by lia.
      apply Hrej. lia.
  - exists 0%nat. replace (p + 2 * 0)%nat with p by lia.
    injection H as <- <-.
    split; [lia|]. split; [now apply accepted_iff|].
    split; [intros j Hj; lia|]. split; [lia | reflexivity].
Qed.

(** X17. [gaussRandom] returns exactly when the stream, read in pairs from
    the cursor, holds an accepted pair.  When it returns, it has read the
    pairs up to the first accepted one: that pair is accepted, every pair
    before it is rejected, the result is the deviate formed from it and the
    cursor is just past it; and whenever pair [k] is the first accepted one,
    the call returns that deviate as soon as it may take more than [k]
    turns.  On a stream that never has an accepted pair (every draw 0.5,
    say, which gives [u = v = 0]) it loops forever. *)
Theorem gaussRandom_returns_iff (rnd : nat -> R) (p : nat) :
  ((exists fuel r, gaussRandom rnd fuel p = Some r) <->
   (exists k, accepted rnd (p + 2 * k))) /\
  (forall fuel g p', gaussRandom rnd fuel p = Some (g, p') ->
     exists k, (k < fuel)%nat /\
               accepted rnd (p + 2 * k) /\
               (forall j, (j < k)%nat -> ~ accepted rnd (p + 2 * j)) /\
               p' = (p + 2 * k + 2)%nat /\ g = deviate rnd (p + 2 * k)) /\
  (forall k, accepted rnd (p + 2 * k) ->
     (forall j, (j < k)%nat -> ~ accepted rnd (p + 2 * j)) ->
     forall fuel, (k < fuel)%nat ->
       gaussRandom rnd fuel p = Some (deviate rnd (p + 2 * k), (p + 2 * k + 2)%nat)) /\
  (forall fuel, gaussRandom (fun _ => 0.5) fuel p = None).
Proof.
  split; [split|split; [|split]].
  - intros [fuel [r H]]. exact (gaussRandom_returns_accepted rnd fuel p r H).
  - intros [k Hk]. destruct (first_accepted rnd k p Hk) as [k0 [_ [Hk0 Hrej]]].
    exists (S k0). eexists. apply gaussRandom_first; [exact Hrej | exact Hk0 | lia].
  - intros fuel g p' H. exact (gaussRandom_returns_first rnd fuel p g p' H).
  - intros k Hacc Hrej fuel Hfuel. now apply gaussRandom_first.
  - intros fuel. revert p. induction fuel as [|fuel IH]; intros p; [reflexivity|].
    rewrite gaussRandom_S.
    assert (E : Rgeb (pair_s (fun _ => 0.5) p) 1 || Reqb (pair_s (fun _ => 0.5) p) 0 = true).
    { apply orb_true_iff. right. apply Reqb_true.
      unfold pair_s, pair_u, pair_v. lra. }
    rewrite E. apply IH.
Qed.

(** ** Where a path starts *)

Lemma runs_for_collect_head {St A} (body : nat -> M St A) (P0 : A -> Prop) (i : nat) :
  (forall s, runs (body i) s (fun a _ => P0 a)) ->
  (forall j, total (body j)) ->
  forall n s, runs (for_collect (S n) i body) s
                (fun l _ => List.length l = S n /\ exists a rest, l = a :: rest /\ P0 a).
Proof.
  intros H0 Htot n s. cbn [for_collect].
  apply runs_bind. eapply runs_weaken; [apply H0|].
  cbv beta. intros a s1 Ha. apply runs_bind. eapply runs_weaken.
  { apply (runs_for_collect body (fun _ => True)).
    intros j s2. eapply runs_weaken; [apply runs_total, Htot | auto]. }
  cbv beta. intros rest s2 [Hlen _]. apply runs_ret.
  split; [simpl; congruence|]. now exists a, rest.
Qed.

Lemma total_pathStep rnd from to cp1 cp2 tremor bs i :
  fair rnd -> total (pathStep rnd from to cp1 cp2 tremor bs i).
Proof.
  intros Hfair s.
  destruct (runs_pathStep rnd from to cp1 cp2 tremor bs i s Hfair) as [a [s' [Hy _]]].
  eauto.
Qed.

(** The first sampled point when the tremor is zero. *)
Lemma runs_pathStep_first rnd from to cp1 cp2 bs p :
  fair rnd ->
  runs (pathStep rnd from to cp1 cp2 0 bs 0) p
    (fun q _ => ptx q = Math.round (px from) /\ pty q = Math.round (py from)).
Proof.
  intros Hfair. unfold pathStep. cbv zeta.
  unfold gauss.
  apply runs_bind, runs_bind. eapply runs_weaken;
    [apply runs_total; now apply total_gaussRandom|].
  cbv beta. intros g1 p1 _. apply runs_ret.
  apply runs_bind, runs_bind. eapply runs_weaken;
    [apply runs_total; now apply total_gaussRandom|].
  cbv beta. intros g2 p2 _. apply runs_ret.
  apply runs_bind, runs_rand, runs_ret. cbn [ptx pty].
  unfold cubicBezier. cbn [px py INR].
  split; f_equal; unfold Rdiv; ring.
Qed.

(** X18. With [tremor: 0] (which the code honours: it uses [??] for this
    option) a path between points at least a pixel apart, of at least one
    step ([steps] absent, zero or at least 1, and [targetWidth] not
    negative), starts at the rounded start point and ends at the rounded
    target. *)
Theorem generatePath_endpoints_without_tremor
  (rnd : nat -> R) (from to : Point2D) (opts : Opts) (p : nat) :
  fair rnd -> 1 <= vec.mag (vec.sub to from) ->
  tremor opts = Some 0 ->
  (forall s, steps opts = Some s -> s = 0 \/ 1 <= s) ->
  width_ok opts ->
  runs (generatePath rnd from to opts) p
    (fun path _ =>
       exists (first last_ : PathPoint) (middle : list PathPoint),
         path = first :: middle ++ [last_] /\
         ptx first = Math.round (px from) /\ pty first = Math.round (py from) /\
         ptx last_ = Math.round (px to) /\ pty last_ = Math.round (py to)).
Proof.
  intros Hfair Hd Htr Hs Hw.
  assert (Hsteps : exists bs, step_count rnd opts (vec.mag (vec.sub to from)) p = Fin bs
                              /\ 1 <= bs).
  { destruct (steps opts) as [s|] eqn:E.
    - destruct (Req_dec_T s 0) as [E0|E0].
      + subst s. destruct (step_count_auto rnd opts (vec.mag (vec.sub to from)) p Hw)
          as [n [Hn [H15 _]]]; [lra | now right |].
        exists n. split; [exact Hn | lra].
      + exists s. split; [now apply step_count_given|].
        destruct (Hs s eq_refl); [contradiction | assumption].
    - destruct (step_count_auto rnd opts (vec.mag (vec.sub to from)) p Hw)
        as [n [Hn [H15 _]]]; [lra | now left |].
      exists n. split; [exact Hn | lra]. }
  destruct Hsteps as [bs [Hbs Hbs1]].
  unfold generatePath.
  apply Rltb_false in Hd. rewrite Hd. rewrite Htr. cbn [num_coalesce].
  apply runs_bind, runs_baseSteps. intros p1. rewrite Hbs.
  apply runs_bind, runs_bezierControlPoints. intros cps.
  pose proof (turns_le_ge bs 1 Hbs1) as Hturns.
  destruct (turns_le bs) as [|[|n]] eqn:En; [simpl in Hturns; lia | simpl in Hturns; lia|].
  apply runs_bind. eapply runs_weaken.
  { apply runs_for_collect_head.
    - intros s. now apply runs_pathStep_first.
    - intros j. now apply total_pathStep. }
  cbv beta. intros pts p2 [Hlen [a [rest [E [Hx Hy]]]]].
  apply runs_bind, runs_rand, runs_ret.
  subst pts. simpl in Hlen.
  destruct rest as [|b rest]; [discriminate|].
  exists a, (mkPathPoint (Math.round (px to)) (Math.round (py to)) (rnd p2 * (6 - 2) + 2)),
    (removelast (b :: rest)).
  split.
  - unfold set_last.
    change (removelast (a :: b :: rest)) with (a :: removelast (b :: rest)).
    reflexivity.
  - cbn [ptx pty]. repeat split; assumption || reflexivity.
Qed.

Lemma generatePath_endpoints_without_tremor_witness :
  runs (generatePath (fun _ => 0.3) (mkPoint 0 0) (mkPoint 100 0)
          (mkOpts (Some 20) (Some 0) None (Some 50) None None)) 0%nat
    (fun path _ =>
       exists (first last_ : PathPoint) (middle : list PathPoint),
         path = first :: middle ++ [last_] /\
         ptx first = Math.round (px (mkPoint 0 0)) /\
         pty first = Math.round (py (mkPoint 0 0)) /\
         ptx last_ = Math.round (px (mkPoint 100 0)) /\
         pty last_ = Math.round (py (mkPoint 100 0))).
Proof.
  apply (generatePath_endpoints_without_tremor (fun _ => 0.3) (mkPoint 0 0) (mkPoint 100 0)
           (mkOpts (Some 20) (Some 0) None (Some 50) None None) 0%nat).
  - apply fair_03.
  - rewrite mag_100. lra.
  - reflexivity.
  - intros s H. simpl in H. injection H. lra.
  - intros tw H. simpl in H. injection H. lra.
Defined.
